(** * LinearAlgebraInC: the naive matrix routines, embedded and verified

    The C sources (NaiveMatrices.c and its extended version with transposition
    and multiplication) work on [Matrix] structs passed by pointer, whose
    [data] field points to a flattened, row-major buffer of doubles.

    The embedding keeps that shape:
    - a [double] is a binary64 primitive float;
    - an [int] is an integer of [Z] and the sums and products that the code
      takes on [int]s wrap around modulo 2^32 (two's complement, what the
      usual compilers make of an overflow, which C leaves undefined); the
      theorems that depend on it state that the sizes they need fit an [int];
    - memory is a store of Matrix structs (by address) and a store of buffers
      (by base pointer), so that two structs may share one buffer and two
      arguments may be the same struct; an access through [data + i] outside
      of the buffer is a fault of the model;
    - the functions are written in a state-and-fault monad, statement by
      statement. *)

From Stdlib Require Import ZArith Floats.
From stdpp Require Import gmap list strings.

Open Scope Z_scope.

(** ** Memory *)

(** Addresses of Matrix structs and base pointers of buffers. *)
Abbreviation addr := N (only parsing).
Abbreviation ptr := N (only parsing).

Definition NULL : ptr := 0%N.

(** typedef struct { int rows; int cols; double *data; } Matrix; *)
Record Matrix : Type := mkMatrix { rows : Z; cols : Z; data : ptr }.

Record mem : Type := mkMem {
  structs : gmap addr Matrix;        (* the Matrix structs, by address *)
  blocks : gmap ptr (list float);    (* the buffers of doubles, by base pointer *)
  out : list string                  (* what printf has written so far *)
}.

Inductive fault : Type :=
| BadStruct (p : addr)               (* no Matrix struct at this address *)
| OutOfBounds (p : ptr) (i : Z).     (* p + i is not inside a buffer *)

Inductive outcome (A : Type) : Type :=
| Ok (a : A) (m : mem)
| Fault (f : fault).
Arguments Ok {A} a m.
Arguments Fault {A} f.

(** ** The monad of C statements *)

Definition M (A : Type) : Type := mem -> outcome A.

Definition ret {A} (a : A) : M A := fun m => Ok a m.

Definition bind {A B} (c : M A) (k : A -> M B) : M B :=
  fun m => match c m with
           | Ok a m' => k a m'
           | Fault f => Fault f
           end.

Declare Scope c_scope.
Delimit Scope c_scope with C.
Notation "x <- c ;; k" := (bind c (fun x => k))
  (at level 100, c at next level, right associativity) : c_scope.
Notation "c ;;; k" := (bind c (fun _ => k))
  (at level 100, k at level 200, right associativity) : c_scope.
Open Scope c_scope.

Definition with_structs (f : gmap addr Matrix -> gmap addr Matrix) (m : mem) : mem :=
  mkMem (f (structs m)) (blocks m) (out m).

Definition with_blocks (f : gmap ptr (list float) -> gmap ptr (list float)) (m : mem) : mem :=
  mkMem (structs m) (f (blocks m)) (out m).

(** [*p] for a [Matrix *p]. *)
Definition load (p : addr) : M Matrix :=
  fun m => match structs m !! p with
           | Some s => Ok s m
           | None => Fault (BadStruct p)
           end.

(** [p->rows], [p->cols], [p->data]. *)
Definition get_rows (p : addr) : M Z := s <- load p ;; ret (rows s).
Definition get_cols (p : addr) : M Z := s <- load p ;; ret (cols s).
Definition get_data (p : addr) : M ptr := s <- load p ;; ret (data s).

(** [p->rows = v], [p->cols = v], [p->data = q]. *)
Definition set_rows (p : addr) (v : Z) : M unit :=
  s <- load p ;;
  fun m => Ok tt (with_structs (insert p (mkMatrix v (cols s) (data s))) m).

Definition set_cols (p : addr) (v : Z) : M unit :=
  s <- load p ;;
  fun m => Ok tt (with_structs (insert p (mkMatrix (rows s) v (data s))) m).

Definition set_data (p : addr) (q : ptr) : M unit :=
  s <- load p ;;
  fun m => Ok tt (with_structs (insert p (mkMatrix (rows s) (cols s) q)) m).

(** [*(p + i)] read. *)
Definition peek (p : ptr) (i : Z) : M float :=
  fun m => match blocks m !! p with
           | Some l =>
               if 0 <=? i then
                 match l !! Z.to_nat i with
                 | Some x => Ok x m
                 | None => Fault (OutOfBounds p i)
                 end
               else Fault (OutOfBounds p i)
           | None => Fault (OutOfBounds p i)
           end.

(** [*(p + i) = x]. *)
Definition poke (p : ptr) (i : Z) (x : float) : M unit :=
  fun m => match blocks m !! p with
           | Some l =>
               if (0 <=? i) && (i <? Z.of_nat (length l)) then
                 Ok tt (with_blocks (insert p (<[Z.to_nat i := x]> l)) m)
               else Fault (OutOfBounds p i)
           | None => Fault (OutOfBounds p i)
           end.

Definition printf (s : string) : M unit :=
  fun m => Ok tt (mkMem (structs m) (blocks m) (out m ++ [s])).

(** [(double * )malloc(n * sizeof(double))] for an [int] n.  What the allocator
    answers is an input of the model: [None] when it returns NULL, [Some junk]
    when it returns a new buffer, whose n cells hold the indeterminate values
    [junk] (cut or padded to n cells).  A negative n turns into a size_t close
    to 2^64 bytes, which no allocator grants. *)
Definition malloc (answer : option (list float)) (n : Z) : M ptr :=
  fun m => match answer with
           | Some junk =>
               if 0 <=? n then
                 let p := fresh ({[NULL]} ∪ dom (blocks m)) in
                 Ok p (with_blocks (insert p (resize (Z.to_nat n) 0%float junk)) m)
               else Ok NULL m
           | None => Ok NULL m
           end.

(** [for (i = lo; i < hi; i++) body].  The bounds of every loop of the library
    are fields of Matrix structs, which no loop body writes (the bodies only
    store doubles into buffers), so that the bound is read once. *)
Fixpoint for_iter (n : nat) (i : Z) (body : Z -> M unit) : M unit :=
  match n with
  | O => ret tt
  | S n' => body i ;;; for_iter n' (i + 1) body
  end.

Definition for_loop (lo hi : Z) (body : Z -> M unit) : M unit :=
  for_iter (Z.to_nat (hi - lo)) lo body.

(** ** int arithmetic

    [int] is 32 bits wide.  [x + y] and [x * y] on two [int]s are [int]
    computations and wrap around.  A sum [p + i] of a pointer and an [int] is
    taken on addresses and does not: [*(data + i * cols + j)] reads
    [(data + i * cols) + j], an [int] product and two pointer sums, so that
    the cell it names is [int_mul i cols + j].  The increment [i++] of a loop
    counter never overflows, the counter being below a bound that is an
    [int]. *)
Definition INT_MAX : Z := 2147483647.
Definition INT_MIN : Z := -2147483648.

Definition int_range (z : Z) : Prop := INT_MIN <= z <= INT_MAX.

Definition wrap (z : Z) : Z := (z + 2147483648) mod 4294967296 - 2147483648.

Definition int_add (x y : Z) : Z := wrap (x + y).
Definition int_mul (x y : Z) : Z := wrap (x * y).

(** ** The library *)

Definition checkDimensions (matrix_a matrix_b : addr) : M bool :=
  ra <- get_rows matrix_a ;;
  rb <- get_rows matrix_b ;;
  if ra =? rb then
    ca <- get_cols matrix_a ;;
    cb <- get_cols matrix_b ;;
    ret (ca =? cb)
  else ret false.

Definition isSquare (mat : addr) : M bool :=
  r <- get_rows mat ;;
  c <- get_cols mat ;;
  ret (r =? c).

Definition transposeMatrix (answer : option (list float)) (matrix result : addr) : M bool :=
  sq <- isSquare matrix ;;
  if sq then
    n <- get_rows matrix ;;
    c <- get_cols matrix ;;
    d <- get_data matrix ;;
    for_loop 0 n (fun i =>
      for_loop (int_add i 1) c (fun j =>
        temp <- peek d (int_mul i c + j) ;;
        x <- peek d (int_mul j c + i) ;;
        poke d (int_mul i c + j) x ;;;
        poke d (int_mul j c + i) temp)) ;;;
    r <- get_rows matrix ;; set_rows result r ;;;
    c <- get_cols matrix ;; set_cols result c ;;;
    d <- get_data matrix ;; set_data result d ;;;
    ret true
  else
    c <- get_cols matrix ;; set_rows result c ;;;
    r <- get_rows matrix ;; set_cols result r ;;;
    rr <- get_rows result ;;
    rc <- get_cols result ;;
    p <- malloc answer (int_mul rr rc) ;;
    set_data result p ;;;
    rd <- get_data result ;;
    if (rd =? NULL)%N then
      printf "Memory allocation failed for transposed matrix.
" ;;;
      ret false
    else
      n <- get_rows matrix ;;
      c <- get_cols matrix ;;
      d <- get_data matrix ;;
      rc <- get_cols result ;;
      for_loop 0 n (fun i =>
        for_loop 0 c (fun j =>
          x <- peek d (int_mul i c + j) ;;
          poke rd (int_mul j rc + i) x)) ;;;
      ret true.

Definition multiplyScalar (matrix : addr) (scalar : float) : M unit :=
  r <- get_rows matrix ;;
  c <- get_cols matrix ;;
  d <- get_data matrix ;;
  for_loop 0 (int_add r c) (fun i =>
    x <- peek d i ;;
    poke d i (x * scalar)%float).

Definition sumMatrices (matrix_a matrix_b : addr) (subtraction : bool) (result : addr) : M bool :=
  same <- checkDimensions matrix_a matrix_b ;;
  if negb same then
    printf "Mismatch in the dimensions when summing" ;;;
    ret false
  else
    r <- get_rows matrix_a ;; set_rows result r ;;;
    c <- get_cols matrix_a ;; set_cols result c ;;;
    (if subtraction then multiplyScalar matrix_b (-1)%float else ret tt) ;;;
    r <- get_rows matrix_a ;;
    c <- get_cols matrix_a ;;
    da <- get_data matrix_a ;;
    db <- get_data matrix_b ;;
    dr <- get_data result ;;
    for_loop 0 (int_mul r c) (fun i =>
      x <- peek da i ;;
      y <- peek db i ;;
      poke dr i (x + y)%float) ;;;
    ret true.

Definition multiplyMatrices (matrix_a matrix_b result : addr) : M bool :=
  ca <- get_cols matrix_a ;;
  rb <- get_rows matrix_b ;;
  if negb (ca =? rb) then
    printf "Incompatible dimensions in matrix multiplication" ;;;
    ret false
  else
    ca <- get_cols matrix_a ;; set_rows result ca ;;;
    cb <- get_cols matrix_b ;; set_cols result cb ;;;
    ra <- get_rows matrix_a ;;
    cb <- get_cols matrix_b ;;
    ca <- get_cols matrix_a ;;
    da <- get_data matrix_a ;;
    db <- get_data matrix_b ;;
    dr <- get_data result ;;
    rc <- get_cols result ;;
    for_loop 0 ra (fun r =>
      for_loop 0 cb (fun c =>
        poke dr (int_mul r rc + c) 0%float ;;;
        for_loop 0 ca (fun k =>
          acc <- peek dr (int_mul r rc + c) ;;
          x <- peek da (int_mul r ca + k) ;;
          y <- peek db (int_mul k cb + c) ;;
          poke dr (int_mul r rc + c) (acc + x * y)%float))) ;;;
    ret true.

(** ** Example data

    The stack frame of the demonstration program ([main]): its structs by
    address, the arrays they point to by base pointer, and a 2 x 2 matrix
    next to them.  The arrays hold the small integers of the tests
    ({{1,2,3},{4,5,6}} for matrixA, {{7,8},{9,10},{11,12}} for matrixC), which
    are doubles without rounding, where [main] has decimals; the arrays and
    structs that [main] leaves uninitialised hold zeros. *)

Definition matrixA : addr := 1%N.
Definition matrixB : addr := 2%N.
Definition matrixC : addr := 3%N.
Definition resultSum : addr := 4%N.
Definition resultMinus : addr := 5%N.
Definition resultMult : addr := 6%N.
Definition vector : addr := 7%N.
Definition resultTrans : addr := 8%N.
Definition vectorTrans : addr := 9%N.
Definition squareS : addr := 10%N.

Definition matrixAData : ptr := 1%N.
Definition matrixBData : ptr := 2%N.
Definition matrixCData : ptr := 3%N.
Definition resultData : ptr := 4%N.
Definition resultMultData : ptr := 5%N.
Definition vectorData : ptr := 6%N.
Definition squareSData : ptr := 7%N.

Definition main_frame : mem :=
  mkMem
    (list_to_map
       [ (matrixA, mkMatrix 2 3 matrixAData);
         (matrixB, mkMatrix 2 3 matrixBData);
         (matrixC, mkMatrix 3 2 matrixCData);
         (resultSum, mkMatrix 2 3 resultData);
         (resultMinus, mkMatrix 2 3 resultData);
         (resultMult, mkMatrix 2 2 resultMultData);
         (vector, mkMatrix 1 3 vectorData);
         (resultTrans, mkMatrix 0 0 NULL);
         (vectorTrans, mkMatrix 0 0 NULL);
         (squareS, mkMatrix 2 2 squareSData) ])
    (list_to_map
       [ (matrixAData, [1; 2; 3; 4; 5; 6]%float);
         (matrixBData, [6; 5; 4; 3; 2; 1]%float);
         (matrixCData, [7; 8; 9; 10; 11; 12]%float);
         (resultData, [0; 0; 0; 0; 0; 0]%float);
         (resultMultData, [0; 0; 0; 0]%float);
         (vectorData, [1.5; 2.5; 3.5]%float);
         (squareSData, [1; 2; 3; 4]%float) ])
    [].

(** A Matrix as the data model has it: the struct at [p] is [s], its buffer
    holds [l], and the buffer has exactly [rows * cols] cells. *)
Definition holds (m : mem) (p : addr) (s : Matrix) (l : list float) : Prop :=
  structs m !! p = Some s /\
  blocks m !! data s = Some l /\
  Z.of_nat (length l) = rows s * cols s.

(** [l1] is [l] with its cells of index below [n] multiplied by [scalar], the
    other cells as they are. *)
Definition scaled_prefix (n : Z) (scalar : float) (l l1 : list float) : Prop :=
  length l1 = length l /\
  forall k : nat,
    l1 !! k = if decide (Z.of_nat k < n)
              then (fun x => (x * scalar)%float) <$> l !! k
              else l !! k.

(** Where the in-place transposition of an n x n buffer stands when its outer
    loop is at i and its inner loop at j: the cells (p, q) and (q, p) have been
    exchanged when the smaller of p and q is below i, or is i with the larger
    below j. *)
Definition swapped (i j p q : Z) : bool :=
  (Z.min p q <? i) || ((Z.min p q =? i) && (Z.max p q <? j)).

Definition transposed_upto (n i j : Z) (l l' : list float) : Prop :=
  length l' = length l /\
  forall p q, 0 <= p < n -> 0 <= q < n ->
    l' !! Z.to_nat (p * n + q)
    = l !! Z.to_nat (if swapped i j p q then q * n + p else p * n + q).

(** Where the out-of-place transposition of an r x c buffer [l] into [t]
    stands when its outer loop is at i and its inner loop at j: the cells of
    the rows below i, and of the row i below the column j, have been copied. *)
Definition copied_upto (r c i j : Z) (l t : list float) : Prop :=
  forall i' j', 0 <= i' < r -> 0 <= j' < c ->
    i' < i \/ (i' = i /\ j' < j) ->
    t !! Z.to_nat (j' * r + i') = l !! Z.to_nat (i' * c + j').

(** ** printMatrix

    [printf("%f ", x)] writes the decimal text of the double x and a space;
    the conversion of a double into its text belongs to the C library and is
    the parameter [fmt] here. *)
Definition printMatrix (fmt : float -> string) (matrix : addr) : M unit :=
  rs <- get_rows matrix ;;
  cs <- get_cols matrix ;;
  d <- get_data matrix ;;
  for_loop 0 rs (fun r =>
    for_loop 0 cs (fun c =>
      x <- peek d (int_mul r cs + c) ;;
      printf (String.append (fmt x) " ")) ;;;
    printf "
").

(** What printMatrix is expected to write for a buffer [l] read as [rs] rows of
    [cs] cells: row after row, the cells of the row, each followed by a space,
    then a line break. *)
Definition render_row (fmt : float -> string) (l : list float) (cs r : nat) : list string :=
  ((fun x => String.append (fmt x) " ") <$> take cs (drop (r * cs) l)) ++ ["
"].

Definition render (fmt : float -> string) (l : list float) (rs cs : nat) : list string :=
  concat (render_row fmt l cs <$> seq 0 rs).

(** The cell (r, c) of the product as the header of multiplyMatrices defines
    it, result_{r,c} = sum_{k < n} A_{r,k} B_{k,c}, the terms added one after
    the other to 0 in the order of k; [None] when a term lies outside of the
    buffers. *)
Fixpoint dot (la lb : list float) (ca cb r c : Z) (n : nat) : option float :=
  match n with
  | O => Some 0%float
  | Datatypes.S n' =>
      match dot la lb ca cb r c n',
            la !! Z.to_nat (r * ca + Z.of_nat n'),
            lb !! Z.to_nat (Z.of_nat n' * cb + c) with
      | Some acc, Some x, Some y => Some (acc + x * y)%float
      | _, _, _ => None
      end
  end.

(** Where the loops of multiplyMatrices stand when the cells of the result of
    linear index below n have been computed: these cells hold their sums, the
    cells from n on are those of the buffer [lr] the call found. *)
Definition product_upto (la lb : list float) (ra ca cb n : Z)
    (lr l' : list float) : Prop :=
  length l' = length lr /\
  (forall r c, 0 <= r < ra -> 0 <= c < cb -> r * cb + c < n ->
     l' !! Z.to_nat (r * cb + c) = dot la lb ca cb r c (Z.to_nat ca)) /\
  (forall k : nat, n <= Z.of_nat k -> l' !! k = lr !! k).

(** ** Running the primitives *)

Section Primitives.
Context {A B : Type}.

Lemma bind_Ok (c : M A) (k : A -> M B) m a m' :
  c m = Ok a m' -> bind c k m = k a m'.
Proof. intros H. unfold bind. now rewrite H. Qed.

Lemma bind_Fault (c : M A) (k : A -> M B) m f :
  c m = Fault f -> bind c k m = Fault f.
Proof. intros H. unfold bind. now rewrite H. Qed.
End Primitives.

Section Fields.
Variables (S : gmap N Matrix) (B : gmap N (list float)) (O : list string).
Variables (p : N) (s : Matrix).
Hypothesis Hp : S !! p = Some s.

Lemma get_rows_eq : get_rows p (mkMem S B O) = Ok (rows s) (mkMem S B O).
Proof. unfold get_rows, bind, load. simpl. now rewrite Hp. Qed.

Lemma get_cols_eq : get_cols p (mkMem S B O) = Ok (cols s) (mkMem S B O).
Proof. unfold get_cols, bind, load. simpl. now rewrite Hp. Qed.

Lemma get_data_eq : get_data p (mkMem S B O) = Ok (data s) (mkMem S B O).
Proof. unfold get_data, bind, load. simpl. now rewrite Hp. Qed.

Lemma set_rows_eq v :
  set_rows p v (mkMem S B O)
  = Ok tt (mkMem (<[p := mkMatrix v (cols s) (data s)]> S) B O).
Proof. unfold set_rows, bind, load. simpl. now rewrite Hp. Qed.

Lemma set_cols_eq v :
  set_cols p v (mkMem S B O)
  = Ok tt (mkMem (<[p := mkMatrix (rows s) v (data s)]> S) B O).
Proof. unfold set_cols, bind, load. simpl. now rewrite Hp. Qed.

Lemma set_data_eq q :
  set_data p q (mkMem S B O)
  = Ok tt (mkMem (<[p := mkMatrix (rows s) (cols s) q]> S) B O).
Proof. unfold set_data, bind, load. simpl. now rewrite Hp. Qed.
End Fields.

Section Cells.
Variables (S : gmap N Matrix) (B : gmap N (list float)) (O : list string).
Variables (d : N) (l : list float).
Hypothesis Hd : B !! d = Some l.

Lemma peek_eq i x :
  0 <= i -> l !! Z.to_nat i = Some x ->
  peek d i (mkMem S B O) = Ok x (mkMem S B O).
Proof.
  intros Hi Hx. unfold peek. simpl. rewrite Hd.
  destruct (Z.leb_spec 0 i); [|lia]. now rewrite Hx.
Qed.

Lemma poke_eq i x :
  0 <= i < Z.of_nat (length l) ->
  poke d i x (mkMem S B O) = Ok tt (mkMem S (<[d := <[Z.to_nat i := x]> l]> B) O).
Proof.
  intros Hi. unfold poke. simpl. rewrite Hd.
  destruct (Z.leb_spec 0 i); [|lia].
  destruct (Z.ltb_spec i (Z.of_nat (length l))); [|lia]. reflexivity.
Qed.

Lemma peek_out_of_bounds i :
  Z.of_nat (length l) <= i ->
  peek d i (mkMem S B O) = Fault (OutOfBounds d i).
Proof.
  intros Hi. unfold peek. simpl. rewrite Hd.
  destruct (Z.leb_spec 0 i); [|reflexivity].
  rewrite (lookup_ge_None_2 l (Z.to_nat i)) by lia. reflexivity.
Qed.
End Cells.

(** ** Loops *)

Lemma for_loop_empty lo hi body m : hi <= lo -> for_loop lo hi body m = Ok tt m.
Proof.
  intros H. unfold for_loop. replace (Z.to_nat (hi - lo)) with O by lia. reflexivity.
Qed.

Lemma for_loop_step lo hi body m :
  lo < hi -> for_loop lo hi body m = bind (body lo) (fun _ => for_loop (lo + 1) hi body) m.
Proof.
  intros H. unfold for_loop.
  replace (Z.to_nat (hi - lo)) with (Datatypes.S (Z.to_nat (hi - (lo + 1)))) by lia.
  reflexivity.
Qed.

(** Total correctness with an invariant: every iteration runs through and
    preserves [I], so the loop runs through and establishes [I hi]. *)
Lemma for_loop_inv (I : Z -> mem -> Prop) lo hi body m :
  lo <= hi -> I lo m ->
  (forall i s, lo <= i < hi -> I i s -> exists s', body i s = Ok tt s' /\ I (i + 1) s') ->
  exists m', for_loop lo hi body m = Ok tt m' /\ I hi m'.
Proof.
  intros Hle. remember (Z.to_nat (hi - lo)) as n eqn:Hn.
  revert lo m Hle Hn. induction n as [|n IH]; intros lo m Hle Hn H0 Hbody.
  - assert (lo = hi) as -> by lia. exists m. split; [|assumption].
    apply for_loop_empty. lia.
  - assert (lo < hi) as Hlt by lia.
    destruct (Hbody lo m) as (s' & Hs' & HI'); [lia | assumption |].
    destruct (IH (lo + 1) s') as (m' & Hm' & HI''); [lia | lia | assumption | |].
    + intros i s Hi. apply Hbody. lia.
    + exists m'. split; [|assumption].
      rewrite for_loop_step by assumption. now rewrite (bind_Ok _ _ _ _ _ Hs').
Qed.

(** The loop faults where its body does for the first time. *)
Lemma for_loop_fault (I : Z -> mem -> Prop) lo k hi body m f :
  lo <= k < hi -> I lo m ->
  (forall i s, lo <= i < k -> I i s -> exists s', body i s = Ok tt s' /\ I (i + 1) s') ->
  (forall s, I k s -> body k s = Fault f) ->
  for_loop lo hi body m = Fault f.
Proof.
  intros Hk H0 Hbody Hf.
  destruct (for_loop_inv I lo k body m) as (m' & Hm' & HI); [lia | assumption | assumption |].
  clear H0. revert Hm'. unfold for_loop.
  replace (Z.to_nat (hi - lo)) with (Z.to_nat (k - lo) + Datatypes.S (Z.to_nat (hi - (k + 1))))%nat by lia.
  assert (Hlo : lo <= k) by lia. clear Hk Hbody.
  remember (Z.to_nat (k - lo)) as n eqn:Hn.
  revert lo m Hlo Hn. induction n as [|n IH]; intros lo m Hlo Hn Hm'.
  - assert (lo = k) as -> by lia. simpl in *. inversion Hm'; subst.
    apply bind_Fault. now apply Hf.
  - simpl in *. unfold bind in *. destruct (body lo m) as [[] s'|f']; [|discriminate].
    apply (IH (lo + 1)); [lia | lia | assumption].
Qed.

(** Partial correctness: what every iteration preserves, a loop that runs
    through preserves. *)
Lemma for_loop_preserves (P : mem -> Prop) lo hi body m m' :
  (forall i s s', P s -> body i s = Ok tt s' -> P s') ->
  P m -> for_loop lo hi body m = Ok tt m' -> P m'.
Proof.
  intros Hbody. unfold for_loop. generalize (Z.to_nat (hi - lo)) as n.
  intros n. revert lo m. induction n as [|n IH]; intros lo m HP Hrun.
  - simpl in Hrun. inversion Hrun; subst. assumption.
  - simpl in Hrun. unfold bind in Hrun.
    destruct (body lo m) as [[] s'|f'] eqn:Hb; [|discriminate].
    apply (IH (lo + 1) s'); [|assumption]. eapply Hbody; eassumption.
Qed.

(** Two loops whose bodies agree on the range are the same loop. *)
Lemma for_loop_ext lo hi body body' m :
  (forall i, lo <= i < hi -> forall st, body i st = body' i st) ->
  for_loop lo hi body m = for_loop lo hi body' m.
Proof.
  intros Hext. unfold for_loop.
  remember (Z.to_nat (hi - lo)) as n eqn:Hn.
  revert lo m Hext Hn. induction n as [|n IH]; intros lo m Hext Hn; [reflexivity|].
  simpl. unfold bind. rewrite Hext by lia.
  destruct (body' lo m) as [[] m1 | f]; [|reflexivity].
  apply IH; [|lia]. intros i Hi. apply Hext. lia.
Qed.

Lemma bind_ext {A B} (c : M A) (k k' : A -> M B) m :
  (forall a st, k a st = k' a st) -> bind c k m = bind c k' m.
Proof. intros Hext. unfold bind. destruct (c m); [apply Hext | reflexivity]. Qed.

(** ** int arithmetic without overflow *)

Lemma wrap_small z : int_range z -> wrap z = z.
Proof.
  unfold int_range, INT_MIN, INT_MAX, wrap. intros Hz.
  rewrite Z.mod_small by lia. lia.
Qed.

Lemma wrap_le z : 0 <= z -> wrap z <= z.
Proof.
  unfold wrap. intros Hz.
  pose proof (Z.mod_le (z + 2147483648) 4294967296 ltac:(lia) ltac:(lia)). lia.
Qed.

Lemma int_add_small x y : int_range (x + y) -> int_add x y = x + y.
Proof. apply wrap_small. Qed.

Lemma int_mul_small x y : int_range (x * y) -> int_mul x y = x * y.
Proof. apply wrap_small. Qed.

Lemma int_mul_le x y : 0 <= x * y -> int_mul x y <= x * y.
Proof. apply wrap_le. Qed.

(** Past the range the int computations wrap: 65537 * 65537 is 131073 as an
    int, and on a matrix declared INT_MAX x 1 the bound rows + cols of
    multiplyScalar is INT_MIN, so that the loop body never runs. *)
Example int_mul_wraps : int_mul 65537 65537 = 131073.
Proof. reflexivity. Qed.

Example int_add_wraps : int_add INT_MAX 1 = INT_MIN.
Proof. reflexivity. Qed.

Ltac int_ok := unfold int_range, INT_MIN, INT_MAX in *; nia.

(** ** Symbolic execution *)

Ltac lk :=
  simpl;
  first [ eassumption
        | reflexivity
        | rewrite lookup_insert_eq; reflexivity
        | rewrite lookup_insert_ne by (first [assumption | congruence]); lk ].

Ltac step :=
  first
    [ erewrite bind_Ok by (apply get_rows_eq; lk)
    | erewrite bind_Ok by (apply get_cols_eq; lk)
    | erewrite bind_Ok by (apply get_data_eq; lk)
    | erewrite bind_Ok by (apply set_rows_eq; lk)
    | erewrite bind_Ok by (apply set_cols_eq; lk)
    | erewrite bind_Ok by (apply set_data_eq; lk)
    | erewrite bind_Ok by (unfold printf; simpl; reflexivity)
    | erewrite bind_Ok by (unfold ret; reflexivity) ];
  simpl.

Lemma checkDimensions_eq S B O pa pb a b :
  S !! pa = Some a -> S !! pb = Some b ->
  checkDimensions pa pb (mkMem S B O)
  = Ok ((rows a =? rows b) && (cols a =? cols b)) (mkMem S B O).
Proof.
  intros Ha Hb. unfold checkDimensions. do 2 step.
  destruct (rows a =? rows b); [|reflexivity]. do 2 step. reflexivity.
Qed.

Lemma isSquare_eq S B O p s :
  S !! p = Some s ->
  isSquare p (mkMem S B O) = Ok (rows s =? cols s) (mkMem S B O).
Proof. intros Hs. unfold isSquare. do 2 step. reflexivity. Qed.

(** What a statement that runs through came from, and what reading and
    writing cells leave alone. *)
Lemma bind_Ok_inv {A B} (c : M A) (k : A -> M B) m b m' :
  bind c k m = Ok b m' -> exists a m1, c m = Ok a m1 /\ k a m1 = Ok b m'.
Proof.
  unfold bind. destruct (c m) as [a m1 | f]; [|discriminate]. eauto.
Qed.

Lemma peek_mem d i m x m' : peek d i m = Ok x m' -> m' = m.
Proof.
  unfold peek. destruct (blocks m !! d) as [l|]; [|discriminate].
  destruct (0 <=? i); [|discriminate].
  destruct (l !! Z.to_nat i); [|discriminate]. now intros [= _ <-].
Qed.

Lemma poke_structs d i x m m' : poke d i x m = Ok tt m' -> structs m' = structs m.
Proof.
  unfold poke. destruct (blocks m !! d) as [l|]; [|discriminate].
  destruct ((0 <=? i) && (i <? Z.of_nat (length l))); [|discriminate].
  now intros [= <-].
Qed.

(** Two doubles are told apart by the comparison [=?] of the second with
    itself and with the first. *)
Ltac float_neq :=
  let H := fresh in
  intros H;
  match type of H with
  | ?x = ?y => apply (f_equal (fun z => PrimFloat.eqb z y)) in H
  end;
  vm_compute in H; discriminate.

(** ** multiplyScalar *)

(** One iteration of the loop of multiplyScalar, inside the buffer. *)
Lemma multiplyScalar_body S B O d l i scalar :
  B !! d = Some l -> 0 <= i < Z.of_nat (length l) ->
  exists x,
    l !! Z.to_nat i = Some x /\
    bind (peek d i) (fun x => poke d i (x * scalar)%float) (mkMem S B O)
    = Ok tt (mkMem S (<[d := <[Z.to_nat i := (x * scalar)%float]> l]> B) O).
Proof.
  intros Hd Hi.
  destruct (lookup_lt_is_Some_2 l (Z.to_nat i)) as [x Hx]; [lia|].
  exists x. split; [assumption|].
  rewrite (bind_Ok _ _ _ _ _ (peek_eq S B O d l Hd i x ltac:(lia) Hx)).
  now apply poke_eq.
Qed.

(** The loop of multiplyScalar stops on the first index outside of the buffer,
    when its bound exceeds the length of the buffer. *)
Lemma multiplyScalar_fault S B O matrix s l scalar :
  S !! matrix = Some s -> B !! data s = Some l ->
  int_add (rows s) (cols s) > Z.of_nat (length l) ->
  multiplyScalar matrix scalar (mkMem S B O)
  = Fault (OutOfBounds (data s) (Z.of_nat (length l))).
Proof.
  intros Hs Hd Hgt. unfold multiplyScalar. do 3 step.
  apply (for_loop_fault
           (fun _ st => exists l', st = mkMem S (<[data s := l']> B) O
                                   /\ length l' = length l)
           0 (Z.of_nat (length l))).
  - lia.
  - exists l. split; [|reflexivity]. now rewrite insert_id.
  - intros i st Hi (l' & -> & Hl').
    destruct (multiplyScalar_body S (<[data s := l']> B) O (data s) l' i scalar)
      as (x & _ & Hrun); [apply lookup_insert_eq | lia |].
    eexists. split; [exact Hrun|].
    eexists. split; [now rewrite insert_insert_eq | now rewrite length_insert].
  - intros st (l' & -> & Hl').
    apply bind_Fault.
    apply (peek_out_of_bounds S _ O (data s) l'); [apply lookup_insert_eq | lia].
Qed.

(** What multiplyScalar does when its bound rows + cols stays inside the
    buffer: the cells of index below rows + cols are multiplied, in place. *)
Lemma multiplyScalar_run S B O matrix s l scalar :
  S !! matrix = Some s -> B !! data s = Some l ->
  int_add (rows s) (cols s) <= Z.of_nat (length l) ->
  exists l1,
    multiplyScalar matrix scalar (mkMem S B O)
    = Ok tt (mkMem S (<[data s := l1]> B) O) /\
    scaled_prefix (int_add (rows s) (cols s)) scalar l l1.
Proof.
  intros Hs Hd Hle. unfold multiplyScalar. do 3 step.
  destruct (Z.le_gt_cases (int_add (rows s) (cols s)) 0) as [Hn | Hn].
  { exists l. rewrite for_loop_empty by assumption. rewrite insert_id by assumption.
    split; [reflexivity|]. split; [reflexivity|].
    intros k. destruct (decide (Z.of_nat k < int_add (rows s) (cols s))); [lia | reflexivity]. }
  destruct (for_loop_inv
    (fun i st => exists l', st = mkMem S (<[data s := l']> B) O
                            /\ scaled_prefix i scalar l l')
    0 (int_add (rows s) (cols s))
    (fun i => x <- peek (data s) i ;; poke (data s) i (x * scalar)%float)
    (mkMem S B O)) as (m' & Hrun & l1 & -> & Hl1).
  - lia.
  - exists l. rewrite insert_id by assumption. split; [reflexivity|].
    split; [reflexivity|]. intros k. destruct (decide (Z.of_nat k < 0)); [lia | reflexivity].
  - intros i st Hi (l' & -> & Hlen & Hl').
    destruct (multiplyScalar_body S (<[data s := l']> B) O (data s) l' i scalar)
      as (x & Hx & Hrun); [apply lookup_insert_eq | lia |].
    eexists. split; [exact Hrun|].
    eexists. split; [now rewrite insert_insert_eq|].
    split; [now rewrite length_insert|].
    intros k. destruct (decide (k = Z.to_nat i)) as [-> | Hne].
    + rewrite list_lookup_insert_eq by lia.
      destruct (decide (Z.of_nat (Z.to_nat i) < i + 1)); [|lia].
      rewrite Hl' in Hx. destruct (decide (Z.of_nat (Z.to_nat i) < i)); [lia|].
      now rewrite Hx.
    + rewrite list_lookup_insert_ne by congruence. rewrite Hl'.
      destruct (decide (Z.of_nat k < i)), (decide (Z.of_nat k < i + 1));
        try reflexivity; lia.
  - exists l1. split; assumption.
Qed.

(** On a matrix declared INT_MAX x 1 the sum rows + cols overflows and
    multiplyScalar returns without an access to the buffer. *)
Example multiplyScalar_int_overflow (m : mem) (matrix : N) (d : N) (scalar : float) :
  structs m !! matrix = Some (mkMatrix INT_MAX 1 d) ->
  multiplyScalar matrix scalar m = Ok tt m.
Proof.
  destruct m as [S B O]. simpl. intros Hs.
  unfold multiplyScalar. do 3 step. now apply for_loop_empty.
Qed.

Lemma scaled_prefix_unique n scalar l l1 l2 :
  scaled_prefix n scalar l l1 -> scaled_prefix n scalar l l2 -> l1 = l2.
Proof.
  intros [_ H1] [_ H2]. apply list_eq. intros k. now rewrite H1, H2.
Qed.

(** C2, on the data of the tests: on the 2 x 3 matrix {{1,2,3},{4,5,6}},
    multiplyScalar by 2 multiplies the first rows + cols = 5 cells and leaves
    the sixth at 6. *)
Theorem multiplyScalar_leaves_last_cell :
  exists m',
    multiplyScalar matrixA 2 main_frame = Ok tt m' /\
    blocks m' !! matrixAData = Some [2; 4; 6; 8; 10; 6]%float /\
    (6 * 2)%float = 12%float /\
    6%float <> 12%float.
Proof.
  eexists. split; [reflexivity|].
  split; [reflexivity|]. split; [reflexivity|]. float_neq.
Qed.

(** C10: on a matrix whose buffer holds exactly rows * cols cells and whose
    shape has rows + cols > rows * cols, the sum rows + cols fitting an int,
    multiplyScalar reaches the index rows * cols, which is outside of the
    buffer: the run stops on that out-of-range access. *)
Theorem multiplyScalar_out_of_range (m : mem) (matrix : N) (s : Matrix)
    (l : list float) (scalar : float) :
  holds m matrix s l ->
  rows s + cols s > rows s * cols s ->
  rows s + cols s <= INT_MAX ->
  multiplyScalar matrix scalar m = Fault (OutOfBounds (data s) (rows s * cols s)).
Proof.
  destruct m as [S B O]. intros (Hs & Hd & Hlen) Hgt Hint. simpl in Hs, Hd.
  rewrite <- Hlen. apply multiplyScalar_fault; [assumption | assumption |].
  rewrite int_add_small by (unfold int_range, INT_MIN; lia). lia.
Qed.

Lemma multiplyScalar_out_of_range_witness :
  holds main_frame vector (mkMatrix 1 3 vectorData) [1.5; 2.5; 3.5]%float /\
  1 + 3 > 1 * 3 /\
  1 + 3 <= INT_MAX /\
  multiplyScalar vector 2 main_frame = Fault (OutOfBounds vectorData 3).
Proof.
  split; [repeat split | split; [lia | split; [unfold INT_MAX; lia |]]].
  apply (multiplyScalar_out_of_range main_frame vector (mkMatrix 1 3 vectorData)
           [1.5; 2.5; 3.5]%float 2%float);
    [repeat split | simpl; lia | unfold INT_MAX; simpl; lia].
Defined.

(** ** sumMatrices *)

(** C6: when the shapes of a and b differ, sumMatrices reports the mismatch
    (it prints its message and returns false) and writes nothing: the structs
    and the buffers of the inputs and of the result are as they were. *)
Theorem sumMatrices_shape_mismatch (m : mem) (matrix_a matrix_b result : N)
    (subtraction : bool) (a b : Matrix) :
  structs m !! matrix_a = Some a ->
  structs m !! matrix_b = Some b ->
  rows a <> rows b \/ cols a <> cols b ->
  sumMatrices matrix_a matrix_b subtraction result m
  = Ok false (mkMem (structs m) (blocks m)
                    (out m ++ ["Mismatch in the dimensions when summing"])).
Proof.
  destruct m as [S B O]. simpl. intros Ha Hb Hne.
  unfold sumMatrices.
  rewrite (bind_Ok _ _ _ _ _ (checkDimensions_eq S B O _ _ a b Ha Hb)).
  assert ((rows a =? rows b) && (cols a =? cols b) = false) as ->.
  { apply andb_false_iff. destruct Hne; [left | right]; now apply Z.eqb_neq. }
  simpl. step. reflexivity.
Qed.

Lemma sumMatrices_shape_mismatch_witness :
  structs main_frame !! matrixA = Some (mkMatrix 2 3 matrixAData) /\
  structs main_frame !! matrixC = Some (mkMatrix 3 2 matrixCData) /\
  sumMatrices matrixA matrixC true resultMinus main_frame
  = Ok false (mkMem (structs main_frame) (blocks main_frame)
                    (out main_frame ++ ["Mismatch in the dimensions when summing"])).
Proof.
  split; [reflexivity | split; [reflexivity |]].
  apply (sumMatrices_shape_mismatch main_frame matrixA matrixC resultMinus true
           (mkMatrix 2 3 matrixAData) (mkMatrix 3 2 matrixCData));
    [reflexivity | reflexivity | left; simpl; lia].
Defined.

(** The flattened loop of sumMatrices over the first n cells, when the buffer
    of the result is neither the buffer of a nor the buffer of b. *)
Lemma sum_loop S B O da db dr la lb lr n :
  B !! da = Some la -> B !! db = Some lb -> B !! dr = Some lr ->
  dr <> da -> dr <> db ->
  n <= Z.of_nat (length la) -> n <= Z.of_nat (length lb) -> n <= Z.of_nat (length lr) ->
  exists lr',
    for_loop 0 n (fun i =>
      x <- peek da i ;;
      y <- peek db i ;;
      poke dr i (x + y)%float) (mkMem S B O)
    = Ok tt (mkMem S (<[dr := lr']> B) O) /\
    length lr' = length lr /\
    (forall i, 0 <= i < n ->
       exists x y, la !! Z.to_nat i = Some x /\ lb !! Z.to_nat i = Some y /\
                   lr' !! Z.to_nat i = Some (x + y)%float) /\
    (forall k : nat, n <= Z.of_nat k -> lr' !! k = lr !! k).
Proof.
  intros Ha Hb Hr Hra Hrb Hna Hnb Hnr.
  destruct (Z.le_gt_cases n 0) as [Hn | Hn].
  { exists lr. rewrite for_loop_empty by assumption. rewrite insert_id by assumption.
    repeat split; intros; lia. }
  destruct (for_loop_inv
    (fun i st => exists lr',
       st = mkMem S (<[dr := lr']> B) O /\ length lr' = length lr /\
       (forall k, 0 <= k < i ->
          exists x y, la !! Z.to_nat k = Some x /\ lb !! Z.to_nat k = Some y /\
                      lr' !! Z.to_nat k = Some (x + y)%float) /\
       (forall k : nat, i <= Z.of_nat k -> lr' !! k = lr !! k))
    0 n (fun i => x <- peek da i ;; y <- peek db i ;; poke dr i (x + y)%float)
    (mkMem S B O)) as (m' & Hrun & lr' & -> & Hlen & Hlo & Hhi).
  - lia.
  - exists lr. rewrite insert_id by assumption. repeat split; intros; lia.
  - intros i st Hi (l' & -> & Hlen & Hlo & Hhi).
    destruct (lookup_lt_is_Some_2 la (Z.to_nat i)) as [x Hx]; [lia|].
    destruct (lookup_lt_is_Some_2 lb (Z.to_nat i)) as [y Hy]; [lia|].
    assert (Ha' : <[dr := l']> B !! da = Some la) by now rewrite lookup_insert_ne.
    assert (Hb' : <[dr := l']> B !! db = Some lb) by now rewrite lookup_insert_ne.
    assert (0 <= i) as Hi0 by lia.
    rewrite (bind_Ok _ _ _ _ _ (peek_eq S _ O da la Ha' i x Hi0 Hx)).
    rewrite (bind_Ok _ _ _ _ _ (peek_eq S _ O db lb Hb' i y Hi0 Hy)).
    rewrite (poke_eq S _ O dr l' (lookup_insert_eq _ _ _)) by lia.
    eexists. split; [reflexivity|].
    eexists. split; [now rewrite insert_insert_eq|].
    split; [now rewrite length_insert|]. split.
    + intros k Hk. destruct (Z.eq_dec k i) as [-> | Hne].
      * exists x, y. repeat split; try assumption.
        apply list_lookup_insert_eq. lia.
      * destruct (Hlo k) as (x' & y' & Hx' & Hy' & Hr'); [lia|].
        exists x', y'. repeat split; try assumption.
        rewrite list_lookup_insert_ne by lia. assumption.
    + intros k Hk. rewrite list_lookup_insert_ne by lia. apply Hhi. lia.
  - exists lr'. repeat split; assumption.
Qed.

(** C5: for a and b of equal shape, their rows * cols fitting an int, and a
    result whose buffer is large enough and is not the buffer of a or b,
    sumMatrices without subtraction succeeds, gives the result the dimensions
    of a, stores a[i] + b[i] at every linear index i, and leaves a and b
    (struct and buffer) as they were. *)
Theorem sumMatrices_add (m : mem) (matrix_a matrix_b result : N)
    (a b r : Matrix) (la lb lr : list float) :
  holds m matrix_a a la ->
  holds m matrix_b b lb ->
  rows a = rows b -> cols a = cols b ->
  rows a * cols a <= INT_MAX ->
  structs m !! result = Some r ->
  blocks m !! data r = Some lr ->
  rows a * cols a <= Z.of_nat (length lr) ->
  data r <> data a -> data r <> data b ->
  exists m' lr',
    sumMatrices matrix_a matrix_b false result m = Ok true m' /\
    structs m' !! result = Some (mkMatrix (rows a) (cols a) (data r)) /\
    blocks m' !! data r = Some lr' /\
    (forall i, 0 <= i < rows a * cols a ->
       exists x y, la !! Z.to_nat i = Some x /\ lb !! Z.to_nat i = Some y /\
                   lr' !! Z.to_nat i = Some (x + y)%float) /\
    holds m' matrix_a a la /\
    holds m' matrix_b b lb.
Proof.
  destruct m as [S B O].
  intros (Ha & Hda & Hla) (Hb & Hdb & Hlb) Hrows Hcols Hint Hr Hdr Hlr Hra Hrb.
  simpl in *.
  assert (Hpa : result <> matrix_a) by (intros ->; congruence).
  assert (Hpb : result <> matrix_b) by (intros ->; congruence).
  destruct (sum_loop (<[result := mkMatrix (rows a) (cols a) (data r)]> S) B O
              (data a) (data b) (data r) la lb lr (rows a * cols a))
    as (lr' & Hrun & Hlen & Hsum & _); try assumption; try lia.
  eexists. exists lr'. split.
  - unfold sumMatrices.
    rewrite (bind_Ok _ _ _ _ _ (checkDimensions_eq S B O _ _ a b Ha Hb)).
    rewrite Hrows, Hcols, !Z.eqb_refl. simpl.
    do 5 step. rewrite insert_insert_eq. do 5 step.
    rewrite int_mul_small by (unfold int_range, INT_MIN; lia).
    rewrite (bind_Ok _ _ _ _ _ Hrun). reflexivity.
  - simpl. split; [apply lookup_insert_eq|].
    split; [apply lookup_insert_eq|].
    split; [assumption|].
    split; (split; [|split]); simpl; try assumption;
      rewrite lookup_insert_ne by congruence; assumption.
Qed.

Lemma sumMatrices_add_witness :
  exists m' lr',
    sumMatrices matrixA matrixB false resultSum main_frame = Ok true m' /\
    structs m' !! resultSum = Some (mkMatrix 2 3 resultData) /\
    blocks m' !! resultData = Some lr' /\
    (forall i, 0 <= i < 2 * 3 ->
       exists x y, [1; 2; 3; 4; 5; 6]%float !! Z.to_nat i = Some x /\
                   [6; 5; 4; 3; 2; 1]%float !! Z.to_nat i = Some y /\
                   lr' !! Z.to_nat i = Some (x + y)%float) /\
    holds m' matrixA (mkMatrix 2 3 matrixAData) [1; 2; 3; 4; 5; 6]%float /\
    holds m' matrixB (mkMatrix 2 3 matrixBData) [6; 5; 4; 3; 2; 1]%float.
Proof.
  apply (sumMatrices_add main_frame matrixA matrixB resultSum
           (mkMatrix 2 3 matrixAData) (mkMatrix 2 3 matrixBData)
           (mkMatrix 2 3 resultData)
           [1; 2; 3; 4; 5; 6]%float [6; 5; 4; 3; 2; 1]%float
           [0; 0; 0; 0; 0; 0]%float);
    try (repeat split; fail); try reflexivity;
    try (cbv delta [int_range INT_MIN INT_MAX]; simpl; lia); vm_compute; lia.
Defined.

(** sumMatrices with subtraction, when multiplyScalar stays inside the buffer
    of b: b is overwritten by multiplyScalar, and the sum is taken with what
    multiplyScalar left in b. *)
Lemma sumMatrices_subtract_run S B O matrix_a matrix_b result a b r la lb lr :
  S !! matrix_a = Some a -> B !! data a = Some la ->
  Z.of_nat (length la) = rows a * cols a ->
  S !! matrix_b = Some b -> B !! data b = Some lb ->
  Z.of_nat (length lb) = rows b * cols b ->
  rows a = rows b -> cols a = cols b ->
  S !! result = Some r -> B !! data r = Some lr ->
  rows a * cols a <= Z.of_nat (length lr) ->
  data r <> data a -> data r <> data b -> data a <> data b ->
  int_add (rows b) (cols b) <= Z.of_nat (length lb) ->
  exists lb1 lr',
    sumMatrices matrix_a matrix_b true result (mkMem S B O)
    = Ok true (mkMem (<[result := mkMatrix (rows a) (cols a) (data r)]> S)
                     (<[data r := lr']> (<[data b := lb1]> B)) O) /\
    scaled_prefix (int_add (rows b) (cols b)) (-1) lb lb1 /\
    (forall i, 0 <= i < int_mul (rows a) (cols a) ->
       exists x y, la !! Z.to_nat i = Some x /\ lb1 !! Z.to_nat i = Some y /\
                   lr' !! Z.to_nat i = Some (x + y)%float).
Proof.
  intros Ha Hda Hla Hb Hdb Hlb Hrows Hcols Hr Hdr Hlr Hra Hrb Hab Hin.
  assert (Hpa : result <> matrix_a) by (intros ->; congruence).
  assert (Hpb : result <> matrix_b) by (intros ->; congruence).
  assert (Hn : int_mul (rows a) (cols a) <= rows a * cols a)
    by (apply int_mul_le; lia).
  set (S' := <[result := mkMatrix (rows a) (cols a) (data r)]> S).
  assert (Hb' : S' !! matrix_b = Some b) by (unfold S'; now rewrite lookup_insert_ne).
  destruct (multiplyScalar_run S' B O matrix_b b lb (-1)%float Hb' Hdb Hin)
    as (lb1 & Hneg & Hlb1).
  destruct (sum_loop S' (<[data b := lb1]> B) O
              (data a) (data b) (data r) la lb1 lr (int_mul (rows a) (cols a)))
    as (lr' & Hrun & Hlen & Hsum & _); try assumption; try lia.
  { now rewrite lookup_insert_ne by congruence. }
  { apply lookup_insert_eq. }
  { now rewrite lookup_insert_ne by congruence. }
  { destruct Hlb1 as [-> _]. lia. }
  exists lb1, lr'. split; [|split; assumption].
  unfold sumMatrices.
  rewrite (bind_Ok _ _ _ _ _ (checkDimensions_eq S B O _ _ a b Ha Hb)).
  replace ((rows a =? rows b) && (cols a =? cols b)) with true
    by (now rewrite Hrows, Hcols, !Z.eqb_refl).
  simpl.
  do 4 step. rewrite insert_insert_eq.
  fold S'. rewrite (bind_Ok _ _ _ _ _ Hneg).
  unfold S'. do 5 step. fold S'.
  rewrite (bind_Ok _ _ _ _ _ Hrun). reflexivity.
Qed.

(** C3, as the code has it: with subtraction, sumMatrices overwrites the buffer
    of b through multiplyScalar(b, -1.0) and leaves a alone.  For a and b of
    equal shape with separate buffers and a result with a buffer of its own,
    whenever that call of multiplyScalar runs through, sumMatrices succeeds,
    the struct and every cell of a are as before, the struct of b is as
    before, and the buffer of b is the one that multiplyScalar(b, -1.0)
    produces. *)
Theorem sumMatrices_subtract_inputs (m m1 : mem) (matrix_a matrix_b result : N)
    (a b r : Matrix) (la lb lr : list float) :
  holds m matrix_a a la ->
  holds m matrix_b b lb ->
  rows a = rows b -> cols a = cols b ->
  structs m !! result = Some r ->
  blocks m !! data r = Some lr ->
  rows a * cols a <= Z.of_nat (length lr) ->
  data r <> data a -> data r <> data b -> data a <> data b ->
  multiplyScalar matrix_b (-1) m = Ok tt m1 ->
  exists m',
    sumMatrices matrix_a matrix_b true result m = Ok true m' /\
    holds m' matrix_a a la /\
    structs m' !! matrix_b = Some b /\
    blocks m' !! data b = blocks m1 !! data b.
Proof.
  destruct m as [S B O].
  intros (Ha & Hda & Hla) (Hb & Hdb & Hlb) Hrows Hcols Hr Hdr Hlr Hra Hrb Hab Hneg.
  simpl in *.
  assert (Hpa : result <> matrix_a) by (intros ->; congruence).
  assert (Hpb : result <> matrix_b) by (intros ->; congruence).
  destruct (Z.le_gt_cases (int_add (rows b) (cols b)) (Z.of_nat (length lb)))
    as [Hin | Hout].
  - destruct (multiplyScalar_run S B O matrix_b b lb (-1)%float Hb Hdb Hin)
      as (l1 & Hneg1 & Hl1).
    rewrite Hneg1 in Hneg. injection Hneg as <-.
    destruct (sumMatrices_subtract_run S B O matrix_a matrix_b result a b r la lb lr)
      as (lb1 & lr' & Hrun & Hlb1 & _); try assumption.
    rewrite (scaled_prefix_unique _ _ _ _ _ Hl1 Hlb1).
    eexists. split; [exact Hrun|]. simpl.
    split; [split; [|split]|split]; simpl.
    + now rewrite lookup_insert_ne by congruence.
    + now rewrite !lookup_insert_ne by congruence.
    + assumption.
    + now rewrite lookup_insert_ne by congruence.
    + rewrite lookup_insert_ne by congruence. now rewrite !lookup_insert_eq.
  - rewrite (multiplyScalar_fault S B O matrix_b b lb (-1)%float Hb Hdb) in Hneg by lia.
    discriminate.
Qed.

Lemma sumMatrices_subtract_inputs_witness :
  exists m',
    sumMatrices matrixA matrixB true resultMinus main_frame = Ok true m' /\
    holds m' matrixA (mkMatrix 2 3 matrixAData) [1; 2; 3; 4; 5; 6]%float /\
    structs m' !! matrixB = Some (mkMatrix 2 3 matrixBData) /\
    blocks m' !! matrixBData
    = blocks (with_blocks (insert matrixBData [-6; -5; -4; -3; -2; 1]%float) main_frame)
        !! matrixBData.
Proof.
  apply (sumMatrices_subtract_inputs main_frame
           (with_blocks (insert matrixBData [-6; -5; -4; -3; -2; 1]%float) main_frame)
           matrixA matrixB resultMinus
           (mkMatrix 2 3 matrixAData) (mkMatrix 2 3 matrixBData)
           (mkMatrix 2 3 resultData)
           [1; 2; 3; 4; 5; 6]%float [6; 5; 4; 3; 2; 1]%float
           [0; 0; 0; 0; 0; 0]%float);
    try (repeat split; fail); try reflexivity;
    try (cbv delta [int_range INT_MIN INT_MAX]; simpl; lia); vm_compute; lia.
Defined.

(** C3, on the data of the tests: after a subtraction the buffer of b is no
    longer what it was; its first cells have changed sign. *)
Lemma sumMatrices_subtract_overwrites_b :
  exists m',
    sumMatrices matrixA matrixB true resultMinus main_frame = Ok true m' /\
    blocks main_frame !! matrixBData = Some [6; 5; 4; 3; 2; 1]%float /\
    blocks m' !! matrixBData = Some [-6; -5; -4; -3; -2; 1]%float /\
    (-6)%float <> 6%float.
Proof.
  eexists. split; [reflexivity|].
  split; [reflexivity|]. split; [reflexivity|]. float_neq.
Qed.

(** C4, on the data of the tests: with subtraction, the last cell of the
    result of sumMatrices on {{1,2,3},{4,5,6}} and {{6,5,4},{3,2,1}} is
    6 + 1 = 7, where 6 - 1 is 5: multiplyScalar has not reached the last cell
    of b. *)
Theorem sumMatrices_subtract_last_cell :
  exists m',
    sumMatrices matrixA matrixB true resultMinus main_frame = Ok true m' /\
    blocks m' !! resultData = Some [-5; -3; -1; 1; 3; 7]%float /\
    (6 + 1)%float = 7%float /\
    (6 - 1)%float = 5%float /\
    7%float <> 5%float.
Proof.
  eexists. split; [reflexivity|].
  split; [reflexivity|]. split; [reflexivity|]. split; [reflexivity|]. float_neq.
Qed.

(** ** multiplyMatrices *)

(** C7: when a.cols differs from b.rows, multiplyMatrices reports the
    incompatibility (it prints its message and returns false) and has no other
    effect: the structs and the buffers of the inputs and of the result are as
    they were. *)
Theorem multiplyMatrices_incompatible (m : mem) (matrix_a matrix_b result : N)
    (a b : Matrix) :
  structs m !! matrix_a = Some a ->
  structs m !! matrix_b = Some b ->
  cols a <> rows b ->
  multiplyMatrices matrix_a matrix_b result m
  = Ok false (mkMem (structs m) (blocks m)
                    (out m ++ ["Incompatible dimensions in matrix multiplication"])).
Proof.
  destruct m as [S B O]. simpl. intros Ha Hb Hne.
  unfold multiplyMatrices. do 2 step.
  apply Z.eqb_neq in Hne. rewrite Hne. simpl. step. reflexivity.
Qed.

Lemma multiplyMatrices_incompatible_witness :
  structs main_frame !! matrixA = Some (mkMatrix 2 3 matrixAData) /\
  structs main_frame !! squareS = Some (mkMatrix 2 2 squareSData) /\
  multiplyMatrices matrixA squareS resultMult main_frame
  = Ok false (mkMem (structs main_frame) (blocks main_frame)
                    (out main_frame ++ ["Incompatible dimensions in matrix multiplication"])).
Proof.
  split; [reflexivity | split; [reflexivity |]].
  apply (multiplyMatrices_incompatible main_frame matrixA squareS resultMult
           (mkMatrix 2 3 matrixAData) (mkMatrix 2 2 squareSData));
    [reflexivity | reflexivity | simpl; lia].
Defined.

(** Whenever multiplyMatrices runs through on compatible matrices, with a
    result struct that is neither of them, it returns true and has declared
    the result to have a.cols rows and b.cols columns. *)
Lemma multiplyMatrices_shape (m m' : mem) (matrix_a matrix_b result : N)
    (a b r : Matrix) (ret : bool) :
  structs m !! matrix_a = Some a ->
  structs m !! matrix_b = Some b ->
  structs m !! result = Some r ->
  result <> matrix_a -> result <> matrix_b ->
  cols a = rows b ->
  multiplyMatrices matrix_a matrix_b result m = Ok ret m' ->
  ret = true /\
  structs m' !! result = Some (mkMatrix (cols a) (cols b) (data r)).
Proof.
  destruct m as [S B O]. simpl. intros Ha Hb Hr Hna Hnb Hab.
  unfold multiplyMatrices. do 2 step. rewrite Hab, Z.eqb_refl. simpl.
  do 4 step. rewrite insert_insert_eq. do 7 step.
  intros Hrun. apply bind_Ok_inv in Hrun as ([] & m1 & Hloops & Hret).
  injection Hret as <- <-. split; [reflexivity|].
  enough (structs m1 = <[result := mkMatrix (cols a) (cols b) (data r)]> S) as ->
      by (rewrite lookup_insert_eq; now rewrite Hab).
  set (S' := <[result := mkMatrix (cols a) (cols b) (data r)]> S) in *.
  revert Hloops. apply (for_loop_preserves (fun st => structs st = S')); [|reflexivity].
  intros i s s' Hs. apply (for_loop_preserves (fun st => structs st = S')); [|assumption].
  intros j t t' Ht Hbody.
  apply bind_Ok_inv in Hbody as ([] & t1 & Hpoke & Hacc).
  apply poke_structs in Hpoke. rewrite <- Hpoke in Ht.
  revert Hacc. apply (for_loop_preserves (fun st => structs st = S')); [|assumption].
  intros k u u' Hu Hbody.
  apply bind_Ok_inv in Hbody as (acc & s1 & H1 & Hbody). apply peek_mem in H1 as ->.
  apply bind_Ok_inv in Hbody as (x & s1 & H1 & Hbody). apply peek_mem in H1 as ->.
  apply bind_Ok_inv in Hbody as (y & s1 & H1 & Hbody). apply peek_mem in H1 as ->.
  apply poke_structs in Hbody. congruence.
Qed.

(** C1, on the data of the tests: for the 2 x 3 matrix a and the 3 x 2 matrix
    c, multiplyMatrices computes the four cells of the product and declares
    the result to have a.cols = 3 rows, where a.rows is 2. *)
Theorem multiplyMatrices_result_rows :
  exists m',
    multiplyMatrices matrixA matrixC resultMult main_frame = Ok true m' /\
    structs m' !! resultMult = Some (mkMatrix 3 2 resultMultData) /\
    structs m' !! matrixA = Some (mkMatrix 2 3 matrixAData) /\
    blocks m' !! resultMultData = Some [58; 64; 139; 154]%float.
Proof.
  eexists. split; [reflexivity|]. repeat split.
Qed.

(** ** transposeMatrix, square matrices *)

Lemma cell_index_inj n p q p' q' :
  0 <= p -> 0 <= q < n -> 0 <= p' -> 0 <= q' < n ->
  Z.to_nat (p * n + q) = Z.to_nat (p' * n + q') -> p = p' /\ q = q'.
Proof.
  intros Hp Hq Hp' Hq' Heq.
  assert (p * n + q = p' * n + q') as Hz by nia.
  assert (p = p') by nia. subst. split; [reflexivity | lia].
Qed.

Ltac swapped_cases i j p q :=
  unfold swapped;
  destruct (Z.ltb_spec (Z.min p q) i), (Z.eqb_spec (Z.min p q) i),
    (Z.ltb_spec (Z.max p q) j); simpl; try reflexivity; try lia.

(** The exchange of the cells (i, j) and (j, i) moves the inner loop on. *)
Lemma swap_cells n i j l l' x t :
  0 <= i < j -> j < n -> Z.of_nat (length l) = n * n ->
  transposed_upto n i j l l' ->
  l' !! Z.to_nat (i * n + j) = Some t ->
  l' !! Z.to_nat (j * n + i) = Some x ->
  transposed_upto n i (j + 1) l
    (<[Z.to_nat (j * n + i) := t]> (<[Z.to_nat (i * n + j) := x]> l')).
Proof.
  intros Hi Hj Hlen [Hlen' Hinv] Ht Hx. split; [now rewrite !length_insert|].
  intros p q Hp Hq.
  assert (Hij : l' !! Z.to_nat (i * n + j) = l !! Z.to_nat (i * n + j)).
  { rewrite (Hinv i j) by lia. swapped_cases i j i j. }
  assert (Hji : l' !! Z.to_nat (j * n + i) = l !! Z.to_nat (j * n + i)).
  { rewrite (Hinv j i) by lia. swapped_cases i j j i. }
  assert (Hne : Z.to_nat (j * n + i) <> Z.to_nat (i * n + j)).
  { intros Heq. apply cell_index_inj in Heq; lia. }
  destruct (decide (p = i /\ q = j)) as [[-> ->] | Hn1].
  { rewrite list_lookup_insert_ne by assumption.
    rewrite list_lookup_insert_eq by (apply lookup_lt_Some in Ht; lia).
    replace (swapped i (j + 1) i j) with true by (swapped_cases i (j + 1) i j).
    congruence. }
  destruct (decide (p = j /\ q = i)) as [[-> ->] | Hn2].
  { rewrite list_lookup_insert_eq
      by (rewrite length_insert; apply lookup_lt_Some in Hx; lia).
    replace (swapped i (j + 1) j i) with true by (swapped_cases i (j + 1) j i).
    congruence. }
  rewrite !list_lookup_insert_ne.
  - rewrite Hinv by lia.
    replace (swapped i (j + 1) p q) with (swapped i j p q); [reflexivity|].
    unfold swapped.
    destruct (Z.ltb_spec (Z.min p q) i), (Z.eqb_spec (Z.min p q) i),
      (Z.ltb_spec (Z.max p q) j), (Z.ltb_spec (Z.max p q) (j + 1));
      simpl; try reflexivity; lia.
  - intros Heq. apply cell_index_inj in Heq; lia.
  - intros Heq. apply cell_index_inj in Heq; lia.
Qed.

Lemma transposed_upto_change n i j i' j' l l' :
  (forall p q, 0 <= p < n -> 0 <= q < n ->
     swapped i j p q = swapped i' j' p q \/ p = q) ->
  transposed_upto n i j l l' -> transposed_upto n i' j' l l'.
Proof.
  intros Hsw [Hlen Hinv]. split; [assumption|].
  intros p q Hp Hq. rewrite Hinv by assumption.
  destruct (Hsw p q Hp Hq) as [-> | ->]; [reflexivity|].
  now destruct (swapped i j q q), (swapped i' j' q q).
Qed.

(** The inner loop of the in-place transposition, for the row i. *)
Lemma transpose_inner S B O d n i l l' :
  B !! d = Some l' -> 0 <= i < n -> Z.of_nat (length l) = n * n ->
  transposed_upto n i (i + 1) l l' ->
  exists l'',
    for_loop (i + 1) n (fun j =>
      temp <- peek d (i * n + j) ;;
      x <- peek d (j * n + i) ;;
      poke d (i * n + j) x ;;;
      poke d (j * n + i) temp) (mkMem S B O)
    = Ok tt (mkMem S (<[d := l'']> B) O) /\
    transposed_upto n i n l l''.
Proof.
  intros Hd Hi Hlen Hl'.
  destruct (for_loop_inv
    (fun j st => exists l'', st = mkMem S (<[d := l'']> B) O
                             /\ transposed_upto n i j l l'')
    (i + 1) n
    (fun j => temp <- peek d (i * n + j) ;; x <- peek d (j * n + i) ;;
              poke d (i * n + j) x ;;; poke d (j * n + i) temp)
    (mkMem S B O)) as (m' & Hrun & l'' & -> & Hl'').
  - lia.
  - exists l'. split; [now rewrite insert_id | assumption].
  - intros j st Hj (l1 & -> & Hl1).
    assert (Hlen1 : length l1 = length l) by apply Hl1.
    destruct (lookup_lt_is_Some_2 l1 (Z.to_nat (i * n + j))) as [t Ht]; [nia|].
    destruct (lookup_lt_is_Some_2 l1 (Z.to_nat (j * n + i))) as [x Hx]; [nia|].
    assert (Hd1 : <[d := l1]> B !! d = Some l1) by apply lookup_insert_eq.
    rewrite (bind_Ok _ _ _ _ _ (peek_eq S _ O d l1 Hd1 (i * n + j) t ltac:(nia) Ht)).
    rewrite (bind_Ok _ _ _ _ _ (peek_eq S _ O d l1 Hd1 (j * n + i) x ltac:(nia) Hx)).
    rewrite (bind_Ok _ _ _ _ _ (poke_eq S _ O d l1 Hd1 (i * n + j) x ltac:(nia))).
    rewrite (poke_eq S _ O d _ (lookup_insert_eq _ _ _))
      by (rewrite length_insert; nia).
    eexists. split; [reflexivity|].
    eexists. split; [now rewrite !insert_insert_eq|].
    apply swap_cells; try assumption; lia.
  - exists l''. split; assumption.
Qed.

(** The two loops of the in-place transposition of an n x n buffer. *)
Lemma transpose_in_place S B O d n l :
  B !! d = Some l -> Z.of_nat (length l) = n * n ->
  exists l',
    for_loop 0 n (fun i =>
      for_loop (i + 1) n (fun j =>
        temp <- peek d (i * n + j) ;;
        x <- peek d (j * n + i) ;;
        poke d (i * n + j) x ;;;
        poke d (j * n + i) temp)) (mkMem S B O)
    = Ok tt (mkMem S (<[d := l']> B) O) /\
    length l' = length l /\
    forall p q, 0 <= p < n -> 0 <= q < n ->
      l' !! Z.to_nat (p * n + q) = l !! Z.to_nat (q * n + p).
Proof.
  intros Hd Hlen.
  destruct (Z.le_gt_cases n 0) as [Hn | Hn].
  { exists l. rewrite for_loop_empty by assumption. rewrite insert_id by assumption.
    repeat split. intros; lia. }
  destruct (for_loop_inv
    (fun i st => exists l', st = mkMem S (<[d := l']> B) O
                            /\ transposed_upto n i 0 l l')
    0 n
    (fun i => for_loop (i + 1) n (fun j =>
       temp <- peek d (i * n + j) ;; x <- peek d (j * n + i) ;;
       poke d (i * n + j) x ;;; poke d (j * n + i) temp))
    (mkMem S B O)) as (m' & Hrun & l' & -> & Hlen' & Hl').
  - lia.
  - exists l. split; [now rewrite insert_id|]. split; [reflexivity|].
    intros p q Hp Hq. replace (swapped 0 0 p q) with false; [reflexivity|].
    swapped_cases 0 0 p q.
  - intros i st Hi (l1 & -> & Hl1).
    destruct (transpose_inner S (<[d := l1]> B) O d n i l l1)
      as (l2 & Hrun & Hl2); try assumption.
    + apply lookup_insert_eq.
    + revert Hl1. apply transposed_upto_change. intros p q Hp Hq.
      destruct (Z.eq_dec p q) as [-> | Hne]; [now right | left].
      unfold swapped.
      destruct (Z.ltb_spec (Z.min p q) i), (Z.eqb_spec (Z.min p q) i),
        (Z.ltb_spec (Z.max p q) 0), (Z.ltb_spec (Z.max p q) (i + 1));
        simpl; try reflexivity; lia.
    + eexists. split; [exact Hrun|].
      eexists. split; [now rewrite insert_insert_eq|].
      revert Hl2. apply transposed_upto_change. intros p q Hp Hq. left.
      unfold swapped.
      destruct (Z.ltb_spec (Z.min p q) i), (Z.eqb_spec (Z.min p q) i),
        (Z.ltb_spec (Z.max p q) n), (Z.ltb_spec (Z.min p q) (i + 1)),
        (Z.eqb_spec (Z.min p q) (i + 1)), (Z.ltb_spec (Z.max p q) 0);
        simpl; try reflexivity; lia.
  - exists l'. split; [assumption|]. split; [assumption|].
    intros p q Hp Hq. rewrite Hl' by assumption.
    replace (swapped n 0 p q) with true; [reflexivity|].
    swapped_cases n 0 p q.
Qed.

(** transposeMatrix on a square matrix: the buffer is transposed in place and
    the result struct takes the dimensions and the data pointer of the
    matrix. *)
Lemma transposeMatrix_square_run S B O answer matrix result s r0 l :
  S !! matrix = Some s -> S !! result = Some r0 ->
  B !! data s = Some l -> Z.of_nat (length l) = rows s * cols s ->
  rows s = cols s ->
  rows s * cols s <= INT_MAX ->
  exists l',
    transposeMatrix answer matrix result (mkMem S B O)
    = Ok true (mkMem (<[result := mkMatrix (rows s) (cols s) (data s)]> S)
                     (<[data s := l']> B) O) /\
    length l' = length l /\
    forall i j, 0 <= i < rows s -> 0 <= j < cols s ->
      l' !! Z.to_nat (i * cols s + j) = l !! Z.to_nat (j * cols s + i).
Proof.
  intros Hs Hr Hd Hlen Hsq Hint.
  destruct (transpose_in_place S B O (data s) (cols s) l Hd) as (l' & Hrun & Hlen' & Hl').
  { rewrite Hlen, Hsq. reflexivity. }
  exists l'. split; [|split; [assumption|]].
  - unfold transposeMatrix.
    rewrite (bind_Ok _ _ _ _ _ (isSquare_eq S B O matrix s Hs)).
    rewrite Hsq, Z.eqb_refl. do 3 step. rewrite Hsq.
    erewrite bind_Ok; [| erewrite for_loop_ext; [exact Hrun|]].
    2: { intros i Hi st. rewrite int_add_small by int_ok.
         apply for_loop_ext. intros j Hj st'.
         rewrite !int_mul_small by int_ok. reflexivity. }
    destruct (decide (result = matrix)) as [-> | Hne].
    + assert (r0 = s) as -> by congruence.
      do 6 step. rewrite !insert_insert_eq. rewrite Hsq. reflexivity.
    + do 6 step. rewrite !insert_insert_eq. rewrite Hsq. reflexivity.
  - intros i j Hi Hj. apply Hl'; lia.
Qed.

(** C8: on a square matrix whose rows * cols fits an int, transposeMatrix
    transposes in place: it succeeds, allocates nothing, the result struct has
    the dimensions of the matrix and its data pointer (the two share the
    buffer), and in that buffer the cell (i, j) now holds what the cell (j, i)
    held; the diagonal is as it was. *)
Theorem transposeMatrix_square (m : mem) (answer : option (list float))
    (matrix result : N) (s r0 : Matrix) (l : list float) :
  holds m matrix s l ->
  structs m !! result = Some r0 ->
  rows s = cols s ->
  rows s * cols s <= INT_MAX ->
  exists m' l',
    transposeMatrix answer matrix result m = Ok true m' /\
    structs m' !! result = Some (mkMatrix (rows s) (cols s) (data s)) /\
    dom (blocks m') = dom (blocks m) /\
    blocks m' !! data s = Some l' /\
    length l' = length l /\
    (forall i j, 0 <= i < rows s -> 0 <= j < cols s ->
       l' !! Z.to_nat (i * cols s + j) = l !! Z.to_nat (j * cols s + i)) /\
    (forall d, d <> data s -> blocks m' !! d = blocks m !! d).
Proof.
  destruct m as [S B O]. intros (Hs & Hd & Hlen) Hr Hsq Hint. simpl in *.
  destruct (transposeMatrix_square_run S B O answer matrix result s r0 l)
    as (l' & Hrun & Hlen' & Hl'); try assumption.
  eexists. exists l'. split; [exact Hrun|]. simpl.
  split; [apply lookup_insert_eq|].
  split; [|split; [apply lookup_insert_eq|]].
  - apply dom_insert_lookup_L. now exists l.
  - split; [assumption|]. split; [assumption|].
    intros d Hne. now rewrite lookup_insert_ne.
Qed.

Lemma transposeMatrix_square_witness :
  exists m' l',
    transposeMatrix None squareS resultTrans main_frame = Ok true m' /\
    structs m' !! resultTrans = Some (mkMatrix 2 2 squareSData) /\
    dom (blocks m') = dom (blocks main_frame) /\
    blocks m' !! squareSData = Some l' /\
    length l' = 4%nat /\
    (forall i j, 0 <= i < 2 -> 0 <= j < 2 ->
       l' !! Z.to_nat (i * 2 + j) = [1; 2; 3; 4]%float !! Z.to_nat (j * 2 + i)) /\
    (forall d, d <> squareSData -> blocks m' !! d = blocks main_frame !! d).
Proof.
  apply (transposeMatrix_square main_frame None squareS resultTrans
           (mkMatrix 2 2 squareSData) (mkMatrix 0 0 NULL) [1; 2; 3; 4]%float);
    [repeat split | reflexivity | reflexivity | unfold INT_MAX; simpl; lia].
Defined.

(** ** transposeMatrix, rectangular matrices *)

(** The inner loop of the out-of-place transposition, for the row i. *)
Lemma copy_inner S B O d p r c i l t :
  B !! d = Some l -> B !! p = Some t -> p <> d ->
  Z.of_nat (length l) = r * c -> Z.of_nat (length t) = r * c ->
  0 <= i < r -> 0 <= c ->
  copied_upto r c i 0 l t ->
  exists t',
    for_loop 0 c (fun j =>
      x <- peek d (i * c + j) ;;
      poke p (j * r + i) x) (mkMem S B O)
    = Ok tt (mkMem S (<[p := t']> B) O) /\
    length t' = length t /\
    copied_upto r c i c l t'.
Proof.
  intros Hd Hp Hne Hl Ht Hi Hc Hcop.
  destruct (for_loop_inv
    (fun j st => exists t', st = mkMem S (<[p := t']> B) O /\
                            length t' = length t /\ copied_upto r c i j l t')
    0 c (fun j => x <- peek d (i * c + j) ;; poke p (j * r + i) x)
    (mkMem S B O)) as (m' & Hrun & t' & -> & Hlen' & Ht').
  - lia.
  - exists t. split; [now rewrite insert_id|]. split; [reflexivity | assumption].
  - intros j st Hj (t1 & -> & Hlen1 & Ht1).
    destruct (lookup_lt_is_Some_2 l (Z.to_nat (i * c + j))) as [x Hx]; [nia|].
    assert (Hd1 : <[p := t1]> B !! d = Some l) by now rewrite lookup_insert_ne.
    rewrite (bind_Ok _ _ _ _ _ (peek_eq S _ O d l Hd1 (i * c + j) x ltac:(nia) Hx)).
    rewrite (poke_eq S _ O p t1 (lookup_insert_eq _ _ _)) by nia.
    eexists. split; [reflexivity|].
    eexists. split; [now rewrite insert_insert_eq|].
    split; [now rewrite length_insert|].
    intros i' j' Hi' Hj' Hdone.
    destruct (decide (i' = i /\ j' = j)) as [[-> ->] | Hnij].
    + rewrite list_lookup_insert_eq by nia. now rewrite Hx.
    + rewrite list_lookup_insert_ne.
      * apply Ht1; try assumption. lia.
      * intros Heq. apply cell_index_inj in Heq; lia.
  - exists t'. repeat split; assumption.
Qed.

(** The two loops of the out-of-place transposition of an r x c buffer. *)
Lemma copy_transposed S B O d p r c l t :
  B !! d = Some l -> B !! p = Some t -> p <> d ->
  Z.of_nat (length l) = r * c -> Z.of_nat (length t) = r * c ->
  0 <= r -> 0 <= c ->
  exists t',
    for_loop 0 r (fun i =>
      for_loop 0 c (fun j =>
        x <- peek d (i * c + j) ;;
        poke p (j * r + i) x)) (mkMem S B O)
    = Ok tt (mkMem S (<[p := t']> B) O) /\
    length t' = length t /\
    forall i j, 0 <= i < r -> 0 <= j < c ->
      t' !! Z.to_nat (j * r + i) = l !! Z.to_nat (i * c + j).
Proof.
  intros Hd Hp Hne Hl Ht Hr Hc.
  destruct (for_loop_inv
    (fun i st => exists t', st = mkMem S (<[p := t']> B) O /\
                            length t' = length t /\ copied_upto r c i 0 l t')
    0 r (fun i => for_loop 0 c (fun j =>
                    x <- peek d (i * c + j) ;; poke p (j * r + i) x))
    (mkMem S B O)) as (m' & Hrun & t' & -> & Hlen' & Ht').
  - lia.
  - exists t. split; [now rewrite insert_id|]. split; [reflexivity|].
    intros i' j' Hi' Hj' Hdone. lia.
  - intros i st Hi (t1 & -> & Hlen1 & Ht1).
    destruct (copy_inner S (<[p := t1]> B) O d p r c i l t1)
      as (t2 & Hrun & Hlen2 & Ht2); try assumption; try lia.
    + now rewrite lookup_insert_ne.
    + apply lookup_insert_eq.
    + eexists. split; [exact Hrun|].
      eexists. split; [now rewrite insert_insert_eq|].
      split; [congruence|].
      intros i' j' Hi' Hj' Hdone. apply Ht2; try assumption. lia.
  - exists t'. split; [assumption|]. split; [assumption|].
    intros i j Hi Hj. apply Ht'; try assumption. lia.
Qed.

Lemma malloc_eq S B O junk n :
  0 <= n ->
  malloc (Some junk) n (mkMem S B O)
  = Ok (fresh ({[NULL]} ∪ dom B))
       (mkMem S (<[fresh ({[NULL]} ∪ dom B) := resize (Z.to_nat n) 0%float junk]> B) O).
Proof.
  intros Hn. unfold malloc. simpl. destruct (Z.leb_spec 0 n); [reflexivity | lia].
Qed.

Lemma fresh_block (B : gmap N (list float)) :
  fresh ({[NULL]} ∪ dom B) <> NULL /\ B !! fresh ({[NULL]} ∪ dom B) = None.
Proof.
  pose proof (is_fresh ({[NULL]} ∪ dom B)) as Hf.
  split.
  - intros Heq. apply Hf. rewrite Heq. set_solver.
  - apply not_elem_of_dom. intros Hin. apply Hf. set_solver.
Qed.

(** transposeMatrix on a matrix that is not square, when the allocator grants
    the buffer: the result struct, which is not the struct of the matrix,
    takes the exchanged dimensions and the new buffer, where the cell (j, i)
    holds what the cell (i, j) of the matrix holds. *)
Lemma transposeMatrix_rect_run S B O junk matrix result s r0 l :
  S !! matrix = Some s -> S !! result = Some r0 -> result <> matrix ->
  B !! data s = Some l -> Z.of_nat (length l) = rows s * cols s ->
  0 <= rows s -> 0 <= cols s -> rows s <> cols s ->
  rows s * cols s <= INT_MAX ->
  exists t,
    transposeMatrix (Some junk) matrix result (mkMem S B O)
    = Ok true (mkMem (<[result := mkMatrix (cols s) (rows s) (fresh ({[NULL]} ∪ dom B))]> S)
                     (<[fresh ({[NULL]} ∪ dom B) := t]> B) O) /\
    length t = length l /\
    forall i j, 0 <= i < rows s -> 0 <= j < cols s ->
      t !! Z.to_nat (j * rows s + i) = l !! Z.to_nat (i * cols s + j).
Proof.
  intros Hs Hr Hne Hd Hlen Hrows Hcols Hnsq Hint.
  destruct (fresh_block B) as [Hnull Hfresh].
  remember (fresh ({[NULL]} ∪ dom B)) as p eqn:Hp.
  assert (Hpd : p <> data s) by (intros ->; congruence).
  destruct (copy_transposed
              (<[result := mkMatrix (cols s) (rows s) p]> S)
              (<[p := resize (Z.to_nat (cols s * rows s)) 0%float junk]> B) O
              (data s) p (rows s) (cols s) l
              (resize (Z.to_nat (cols s * rows s)) 0%float junk))
    as (t & Hrun & Hlent & Ht); try assumption.
  { now rewrite lookup_insert_ne. }
  { apply lookup_insert_eq. }
  { rewrite length_resize. nia. }
  exists t. split; [|split; [|assumption]].
  - unfold transposeMatrix.
    rewrite (bind_Ok _ _ _ _ _ (isSquare_eq S B O matrix s Hs)).
    apply Z.eqb_neq in Hnsq. rewrite Hnsq.
    do 6 step. rewrite insert_insert_eq.
    rewrite int_mul_small by int_ok.
    rewrite (bind_Ok _ _ _ _ _ (malloc_eq _ B O junk (cols s * rows s) ltac:(nia))).
    rewrite <- Hp. do 2 step. rewrite insert_insert_eq.
    apply N.eqb_neq in Hnull. rewrite Hnull.
    do 4 step.
    erewrite bind_Ok; [| erewrite for_loop_ext; [exact Hrun|]].
    2: { intros i Hi st. apply for_loop_ext. intros j Hj st'.
         rewrite !int_mul_small by int_ok. reflexivity. }
    rewrite insert_insert_eq. reflexivity.
  - rewrite Hlent, length_resize. nia.
Qed.

(** transposeMatrix on the data of the tests: the square matrix {{1,2},{3,4}}
    becomes {{1,3},{2,4}} in its own buffer, which the result points to; the
    1 x 3 vector is copied into a new 3 x 1 buffer and is left as it is; when
    the allocator returns NULL the call prints its message and returns false. *)
Example transposeMatrix_squareS :
  exists m',
    transposeMatrix None squareS resultTrans main_frame = Ok true m' /\
    structs m' !! resultTrans = Some (mkMatrix 2 2 squareSData) /\
    blocks m' !! squareSData = Some [1; 3; 2; 4]%float.
Proof. eexists. repeat split. Qed.

Example transposeMatrix_vector :
  exists m' p,
    transposeMatrix (Some [9; 9; 9]%float) vector vectorTrans main_frame = Ok true m' /\
    structs m' !! vectorTrans = Some (mkMatrix 3 1 p) /\
    blocks main_frame !! p = None /\
    blocks m' !! p = Some [1.5; 2.5; 3.5]%float /\
    blocks m' !! vectorData = Some [1.5; 2.5; 3.5]%float.
Proof. eexists. eexists. repeat split. Qed.

Example transposeMatrix_no_memory :
  exists m',
    transposeMatrix None vector vectorTrans main_frame = Ok false m' /\
    blocks m' = blocks main_frame /\
    out m' = ["Memory allocation failed for transposed matrix.
"].
Proof. eexists. repeat split. Qed.

(** ** transposeMatrix, twice *)

(** Two r x c buffers with the same cells are the same buffer. *)
Lemma buffer_ext r c (l1 l2 : list float) :
  0 <= r -> 0 <= c ->
  Z.of_nat (length l1) = r * c -> Z.of_nat (length l2) = r * c ->
  (forall i j, 0 <= i < r -> 0 <= j < c ->
     l1 !! Z.to_nat (i * c + j) = l2 !! Z.to_nat (i * c + j)) ->
  l1 = l2.
Proof.
  intros Hr Hc H1 H2 Hcells. apply list_eq. intros k.
  destruct (Z.lt_ge_cases (Z.of_nat k) (r * c)) as [Hk | Hk].
  - assert (0 < c) as Hc' by nia.
    pose proof (Z.div_mod (Z.of_nat k) c ltac:(lia)) as Hdm.
    pose proof (Z.mod_pos_bound (Z.of_nat k) c Hc') as Hmod.
    assert (0 <= Z.of_nat k / c < r) as Hdiv.
    { split; [apply Z.div_pos; lia | apply Z.div_lt_upper_bound; lia]. }
    specialize (Hcells (Z.of_nat k / c) (Z.of_nat k mod c) Hdiv Hmod).
    replace (Z.to_nat (Z.of_nat k / c * c + Z.of_nat k mod c)) with k in Hcells by lia.
    exact Hcells.
  - rewrite !lookup_ge_None_2 by lia. reflexivity.
Qed.

(** C9: transposeMatrix applied to a matrix a whose rows * cols fits an int,
    then to its result, gives a matrix with the shape of a and, cell by cell,
    the values of a.  When a is square the two calls work in place on the
    buffer of a and leave every buffer as it was; otherwise each call fills a
    buffer granted by the allocator. *)
Theorem transposeMatrix_twice (m : mem) (junk1 junk2 : list float)
    (matrix once twice : N) (a r1 r2 : Matrix) (la : list float) :
  holds m matrix a la ->
  0 <= rows a -> 0 <= cols a ->
  rows a * cols a <= INT_MAX ->
  structs m !! once = Some r1 ->
  structs m !! twice = Some r2 ->
  once <> matrix -> twice <> once ->
  exists m1 m2 t,
    transposeMatrix (Some junk1) matrix once m = Ok true m1 /\
    transposeMatrix (Some junk2) once twice m1 = Ok true m2 /\
    structs m2 !! twice = Some t /\
    rows t = rows a /\ cols t = cols a /\
    blocks m2 !! data t = Some la /\
    (rows a = cols a -> data t = data a /\ blocks m2 = blocks m).
Proof.
  destruct m as [S B O]. intros (Ha & Hd & Hlen) Hrows Hcols Hint Hr1 Hr2 Hne1 Hne2.
  simpl in *.
  destruct (Z.eq_dec (rows a) (cols a)) as [Hsq | Hnsq].
  - destruct (transposeMatrix_square_run S B O (Some junk1) matrix once a r1 la)
      as (l1 & Hrun1 & Hlen1 & Hl1); try assumption.
    set (S1 := <[once := mkMatrix (rows a) (cols a) (data a)]> S) in *.
    assert (exists r2', S1 !! twice = Some r2') as [r2' Hr2'].
    { unfold S1. rewrite lookup_insert_ne by congruence. eauto. }
    destruct (transposeMatrix_square_run S1 (<[data a := l1]> B) O (Some junk2)
                once twice (mkMatrix (rows a) (cols a) (data a)) r2' l1)
      as (l2 & Hrun2 & Hlen2 & Hl2); simpl; try assumption.
    { apply lookup_insert_eq. }
    { apply lookup_insert_eq. }
    { congruence. }
    simpl in *.
    assert (l2 = la) as ->.
    { apply (buffer_ext (rows a) (cols a)); try assumption; try congruence.
      intros i j Hi Hj. rewrite Hl2 by assumption.
      rewrite <- Hsq in *. apply Hl1; assumption. }
    eexists. eexists. eexists. split; [exact Hrun1|]. split; [exact Hrun2|].
    simpl. split; [apply lookup_insert_eq|]. simpl.
    split; [reflexivity|]. split; [reflexivity|].
    rewrite insert_insert_eq. rewrite insert_id by assumption.
    split; [assumption|]. intros _. split; reflexivity.
  - destruct (transposeMatrix_rect_run S B O junk1 matrix once a r1 la)
      as (t1 & Hrun1 & Hlen1 & Ht1); try assumption.
    destruct (fresh_block B) as [_ Hfresh].
    remember (fresh ({[NULL]} ∪ dom B)) as p1 eqn:Hp1.
    set (S1 := <[once := mkMatrix (cols a) (rows a) p1]> S) in *.
    set (B1 := <[p1 := t1]> B) in *.
    assert (exists r2', S1 !! twice = Some r2') as [r2' Hr2'].
    { unfold S1. rewrite lookup_insert_ne by congruence. eauto. }
    destruct (transposeMatrix_rect_run S1 B1 O junk2 once twice
                (mkMatrix (cols a) (rows a) p1) r2' t1)
      as (t2 & Hrun2 & Hlen2 & Ht2); simpl; try assumption; try lia.
    { apply lookup_insert_eq. }
    { apply lookup_insert_eq. }
    simpl in *.
    assert (t2 = la) as ->.
    { apply (buffer_ext (rows a) (cols a)); try assumption; try lia.
      intros i j Hi Hj. rewrite Ht2 by assumption. apply Ht1; assumption. }
    eexists. eexists. eexists. split; [exact Hrun1|]. split; [exact Hrun2|].
    simpl. split; [apply lookup_insert_eq|]. simpl.
    split; [reflexivity|]. split; [reflexivity|].
    split; [apply lookup_insert_eq|]. intros Hsq. contradiction.
Qed.

Lemma transposeMatrix_twice_witness :
  exists m1 m2 t,
    transposeMatrix (Some []) matrixA resultTrans main_frame = Ok true m1 /\
    transposeMatrix (Some []) resultTrans vectorTrans m1 = Ok true m2 /\
    structs m2 !! vectorTrans = Some t /\
    rows t = 2 /\ cols t = 3 /\
    blocks m2 !! data t = Some [1; 2; 3; 4; 5; 6]%float /\
    (2 = 3 -> data t = matrixAData /\ blocks m2 = blocks main_frame).
Proof.
  apply (transposeMatrix_twice main_frame [] [] matrixA resultTrans vectorTrans
           (mkMatrix 2 3 matrixAData) (mkMatrix 0 0 NULL) (mkMatrix 0 0 NULL)
           [1; 2; 3; 4; 5; 6]%float);
    try (repeat split; fail); try reflexivity;
    try (cbv delta [int_range INT_MIN INT_MAX]; simpl; lia); vm_compute; lia.
Defined.

(** * More of the library

    The routines as they behave beyond the cases above: what multiplyScalar
    and the subtraction reach, what the calls leave alone, the transposition
    of rectangular matrices and its failure, the product, and printMatrix. *)

(** ** multiplyScalar, in general *)

(** X1: when rows + cols fits an int and does not exceed the rows * cols cells
    of the buffer, multiplyScalar runs through, multiplies the cells of linear
    index below rows + cols by the scalar, and leaves the other cells, the
    other buffers, the structs and the output as they were. *)
Theorem multiplyScalar_cells (m : mem) (matrix : N) (s : Matrix)
    (l : list float) (scalar : float) :
  holds m matrix s l ->
  rows s + cols s <= rows s * cols s ->
  int_range (rows s + cols s) ->
  exists l',
    multiplyScalar matrix scalar m
    = Ok tt (mkMem (structs m) (<[data s := l']> (blocks m)) (out m)) /\
    length l' = length l /\
    (forall i, 0 <= i < rows s + cols s ->
       l' !! Z.to_nat i = (fun x => (x * scalar)%float) <$> l !! Z.to_nat i) /\
    (forall i, rows s + cols s <= i -> l' !! Z.to_nat i = l !! Z.to_nat i).
Proof.
  destruct m as [S B O]. intros (Hs & Hd & Hlen) Hle Hint. simpl in *.
  pose proof (int_add_small _ _ Hint) as Hadd.
  destruct (multiplyScalar_run S B O matrix s l scalar Hs Hd) as (l' & Hrun & Hl' & Hcells);
    [lia|].
  rewrite Hadd in Hcells.
  exists l'. split; [exact Hrun|]. split; [assumption|]. split.
  - intros i Hi. rewrite Hcells.
    destruct (decide (Z.of_nat (Z.to_nat i) < rows s + cols s)); [reflexivity | lia].
  - intros i Hi. rewrite Hcells.
    destruct (decide (Z.of_nat (Z.to_nat i) < rows s + cols s)); [lia | reflexivity].
Qed.

Lemma multiplyScalar_cells_witness :
  exists l',
    multiplyScalar matrixA 2 main_frame
    = Ok tt (mkMem (structs main_frame) (<[matrixAData := l']> (blocks main_frame))
                   (out main_frame)) /\
    length l' = 6%nat /\
    (forall i, 0 <= i < 2 + 3 ->
       l' !! Z.to_nat i
       = (fun x => (x * 2)%float) <$> [1; 2; 3; 4; 5; 6]%float !! Z.to_nat i) /\
    (forall i, 2 + 3 <= i -> l' !! Z.to_nat i = [1; 2; 3; 4; 5; 6]%float !! Z.to_nat i).
Proof.
  apply (multiplyScalar_cells main_frame matrixA (mkMatrix 2 3 matrixAData)
           [1; 2; 3; 4; 5; 6]%float 2%float);
    [repeat split | simpl; lia | unfold int_range, INT_MIN, INT_MAX; simpl; lia].
Defined.

(** The shapes with rows + cols = rows * cols are 0 x 0 and 2 x 2. *)
Lemma sum_is_product r c : r + c = r * c -> (r = 0 /\ c = 0) \/ (r = 2 /\ c = 2).
Proof.
  intros Heq. assert ((r - 1) * (c - 1) = 1) as H1 by lia.
  destruct (Z.eq_mul_1 _ _ H1) as [Hr | Hr].
  - right. assert (r = 2) by lia. subst r. lia.
  - left. assert (r = 0) by lia. subst r. lia.
Qed.

(** X2: on a shape with rows + cols = rows * cols, as 2 x 2, multiplyScalar
    multiplies every cell of the matrix by the scalar. *)
Theorem multiplyScalar_whole (m : mem) (matrix : N) (s : Matrix)
    (l : list float) (scalar : float) :
  holds m matrix s l ->
  rows s + cols s = rows s * cols s ->
  multiplyScalar matrix scalar m
  = Ok tt (mkMem (structs m)
                 (<[data s := (fun x => (x * scalar)%float) <$> l]> (blocks m)) (out m)).
Proof.
  destruct m as [S B O]. intros (Hs & Hd & Hlen) Heq. simpl in *.
  assert (Hadd : int_add (rows s) (cols s) = rows s + cols s).
  { apply int_add_small. unfold int_range, INT_MIN, INT_MAX.
    destruct (sum_is_product _ _ Heq) as [[-> ->] | [-> ->]]; lia. }
  destruct (multiplyScalar_run S B O matrix s l scalar Hs Hd) as (l' & Hrun & Hl' & Hcells);
    [lia|].
  rewrite Hadd in Hcells.
  rewrite Hrun. do 3 f_equal.
  apply list_eq. intros k. rewrite list_lookup_fmap, Hcells.
  destruct (decide (Z.of_nat k < rows s + cols s)); [reflexivity|].
  rewrite !lookup_ge_None_2 by lia. reflexivity.
Qed.

Lemma multiplyScalar_whole_witness :
  multiplyScalar squareS 2 main_frame
  = Ok tt (mkMem (structs main_frame)
                 (<[squareSData := (fun x => (x * 2)%float) <$> [1; 2; 3; 4]%float]>
                    (blocks main_frame)) (out main_frame)).
Proof.
  apply (multiplyScalar_whole main_frame squareS (mkMatrix 2 2 squareSData)
           [1; 2; 3; 4]%float 2%float); [repeat split | reflexivity].
Defined.

(** ** sumMatrices, in general *)

(** X3: a successful addition writes the dimensions into the result struct and
    the first rows * cols cells of the result buffer, and nothing else: the
    other structs, the other buffers, the length of the result buffer, its
    cells from rows * cols on and the output are as they were. *)
Theorem sumMatrices_add_frame (m : mem) (matrix_a matrix_b result : N)
    (a b r : Matrix) (la lb lr : list float) :
  holds m matrix_a a la ->
  holds m matrix_b b lb ->
  rows a = rows b -> cols a = cols b ->
  structs m !! result = Some r ->
  blocks m !! data r = Some lr ->
  rows a * cols a <= Z.of_nat (length lr) ->
  data r <> data a -> data r <> data b ->
  exists lr',
    sumMatrices matrix_a matrix_b false result m
    = Ok true (mkMem (<[result := mkMatrix (rows a) (cols a) (data r)]> (structs m))
                     (<[data r := lr']> (blocks m)) (out m)) /\
    length lr' = length lr /\
    (forall k : nat, rows a * cols a <= Z.of_nat k -> lr' !! k = lr !! k).
Proof.
  destruct m as [S B O].
  intros (Ha & Hda & Hla) (Hb & Hdb & Hlb) Hrows Hcols Hr Hdr Hlr Hra Hrb.
  simpl in *.
  assert (Hpa : result <> matrix_a) by (intros ->; congruence).
  assert (Hpb : result <> matrix_b) by (intros ->; congruence).
  assert (Hn : int_mul (rows a) (cols a) <= rows a * cols a)
    by (apply int_mul_le; lia).
  destruct (sum_loop (<[result := mkMatrix (rows a) (cols a) (data r)]> S) B O
              (data a) (data b) (data r) la lb lr (int_mul (rows a) (cols a)))
    as (lr' & Hrun & Hlen & _ & Hrest); try assumption; try lia.
  exists lr'. split; [|split; [assumption | intros k Hk; apply Hrest; lia]].
  unfold sumMatrices.
  rewrite (bind_Ok _ _ _ _ _ (checkDimensions_eq S B O _ _ a b Ha Hb)).
  replace ((rows a =? rows b) && (cols a =? cols b)) with true
    by (now rewrite Hrows, Hcols, !Z.eqb_refl).
  simpl.
  do 5 step. rewrite insert_insert_eq. do 5 step.
  rewrite (bind_Ok _ _ _ _ _ Hrun). reflexivity.
Qed.

Lemma sumMatrices_add_frame_witness :
  exists lr',
    sumMatrices matrixA matrixB false resultSum main_frame
    = Ok true (mkMem (<[resultSum := mkMatrix 2 3 resultData]> (structs main_frame))
                     (<[resultData := lr']> (blocks main_frame)) (out main_frame)) /\
    length lr' = 6%nat /\
    (forall k : nat, 2 * 3 <= Z.of_nat k -> lr' !! k = [0; 0; 0; 0; 0; 0]%float !! k).
Proof.
  apply (sumMatrices_add_frame main_frame matrixA matrixB resultSum
           (mkMatrix 2 3 matrixAData) (mkMatrix 2 3 matrixBData)
           (mkMatrix 2 3 resultData)
           [1; 2; 3; 4; 5; 6]%float [6; 5; 4; 3; 2; 1]%float
           [0; 0; 0; 0; 0; 0]%float);
    try (repeat split; fail); try reflexivity;
    try (cbv delta [int_range INT_MIN INT_MAX]; simpl; lia); vm_compute; lia.
Defined.

(** X4: what the subtraction computes.  For a and b of equal shape with
    rows + cols <= rows * cols, both fitting an int, separate buffers and a
    result buffer of its own, sumMatrices with subtraction succeeds; at a
    linear index i below
    rows + cols the buffer of b now holds b[i] * -1.0 and the result holds
    a[i] + b[i] * -1.0; from rows + cols on, b[i] is kept and the result holds
    a[i] + b[i]. *)
Theorem sumMatrices_subtract_cells (m : mem) (matrix_a matrix_b result : N)
    (a b r : Matrix) (la lb lr : list float) :
  holds m matrix_a a la ->
  holds m matrix_b b lb ->
  rows a = rows b -> cols a = cols b ->
  structs m !! result = Some r ->
  blocks m !! data r = Some lr ->
  rows a * cols a <= Z.of_nat (length lr) ->
  data r <> data a -> data r <> data b -> data a <> data b ->
  rows a + cols a <= rows a * cols a ->
  INT_MIN <= rows a + cols a -> rows a * cols a <= INT_MAX ->
  exists lb' lr',
    sumMatrices matrix_a matrix_b true result m
    = Ok true (mkMem (<[result := mkMatrix (rows a) (cols a) (data r)]> (structs m))
                     (<[data r := lr']> (<[data b := lb']> (blocks m))) (out m)) /\
    forall i, 0 <= i < rows a * cols a ->
      exists x y,
        la !! Z.to_nat i = Some x /\ lb !! Z.to_nat i = Some y /\
        lb' !! Z.to_nat i = Some (if i <? rows a + cols a then (y * -1)%float else y) /\
        lr' !! Z.to_nat i
        = Some (if i <? rows a + cols a then (x + y * -1)%float else (x + y)%float).
Proof.
  destruct m as [S B O].
  intros (Ha & Hda & Hla) (Hb & Hdb & Hlb) Hrows Hcols Hr Hdr Hlr Hra Hrb Hab Hin
    Hmin Hmax.
  simpl in *.
  assert (Hadd : int_add (rows b) (cols b) = rows a + cols a).
  { rewrite <- Hrows, <- Hcols. apply int_add_small. unfold int_range. lia. }
  assert (Hmul : int_mul (rows a) (cols a) = rows a * cols a).
  { apply int_mul_small. unfold int_range, INT_MIN. lia. }
  destruct (sumMatrices_subtract_run S B O matrix_a matrix_b result a b r la lb lr)
    as (lb' & lr' & Hrun & [Hlen' Hlb'] & Hsum); try assumption; try lia.
  rewrite Hadd in Hlb'. rewrite Hmul in Hsum.
  exists lb', lr'. split; [exact Hrun|].
  intros i Hi. destruct (Hsum i Hi) as (x & y' & Hx & Hy' & Hr').
  destruct (lookup_lt_is_Some_2 lb (Z.to_nat i)) as [y Hy]; [lia|].
  exists x, y. split; [assumption|]. split; [assumption|].
  rewrite Hlb', Hy in Hy'.
  destruct (decide (Z.of_nat (Z.to_nat i) < rows a + cols a)) as [Hlt | Hge];
    simpl in Hy'; injection Hy' as <-.
  - destruct (Z.ltb_spec i (rows a + cols a)); [|lia].
    split; [|assumption]. rewrite Hlb', Hy.
    destruct (decide (Z.of_nat (Z.to_nat i) < rows a + cols a)); [reflexivity | lia].
  - destruct (Z.ltb_spec i (rows a + cols a)); [lia|].
    split; [|assumption]. rewrite Hlb', Hy.
    destruct (decide (Z.of_nat (Z.to_nat i) < rows a + cols a)); [lia | reflexivity].
Qed.

Lemma sumMatrices_subtract_cells_witness :
  exists lb' lr',
    sumMatrices matrixA matrixB true resultMinus main_frame
    = Ok true (mkMem (<[resultMinus := mkMatrix 2 3 resultData]> (structs main_frame))
                     (<[resultData := lr']> (<[matrixBData := lb']> (blocks main_frame)))
                     (out main_frame)) /\
    forall i, 0 <= i < 2 * 3 ->
      exists x y,
        [1; 2; 3; 4; 5; 6]%float !! Z.to_nat i = Some x /\
        [6; 5; 4; 3; 2; 1]%float !! Z.to_nat i = Some y /\
        lb' !! Z.to_nat i = Some (if i <? 2 + 3 then (y * -1)%float else y) /\
        lr' !! Z.to_nat i = Some (if i <? 2 + 3 then (x + y * -1)%float else (x + y)%float).
Proof.
  apply (sumMatrices_subtract_cells main_frame matrixA matrixB resultMinus
           (mkMatrix 2 3 matrixAData) (mkMatrix 2 3 matrixBData)
           (mkMatrix 2 3 resultData)
           [1; 2; 3; 4; 5; 6]%float [6; 5; 4; 3; 2; 1]%float
           [0; 0; 0; 0; 0; 0]%float);
    try (repeat split; fail); try reflexivity;
    try (cbv delta [int_range INT_MIN INT_MAX]; simpl; lia); vm_compute; lia.
Defined.

(** X5: on equal shapes with rows + cols > rows * cols, as two row vectors,
    the sum rows + cols fitting an int, the subtraction does not run through: multiplyScalar leaves the buffer of
    b at the index rows * cols and sumMatrices stops on that access. *)
Theorem sumMatrices_subtract_out_of_range (m : mem) (matrix_a matrix_b result : N)
    (a b r : Matrix) (lb : list float) :
  structs m !! matrix_a = Some a ->
  holds m matrix_b b lb ->
  rows a = rows b -> cols a = cols b ->
  structs m !! result = Some r ->
  result <> matrix_a -> result <> matrix_b ->
  rows b + cols b > rows b * cols b ->
  rows b + cols b <= INT_MAX ->
  sumMatrices matrix_a matrix_b true result m
  = Fault (OutOfBounds (data b) (rows b * cols b)).
Proof.
  destruct m as [S B O]. intros Ha (Hb & Hdb & Hlb) Hrows Hcols Hr Hpa Hpb Hgt Hint.
  simpl in *. unfold sumMatrices.
  rewrite (bind_Ok _ _ _ _ _ (checkDimensions_eq S B O _ _ a b Ha Hb)).
  replace ((rows a =? rows b) && (cols a =? cols b)) with true
    by (now rewrite Hrows, Hcols, !Z.eqb_refl).
  simpl.
  do 4 step. rewrite insert_insert_eq.
  apply bind_Fault. rewrite <- Hlb.
  apply multiplyScalar_fault; [now rewrite lookup_insert_ne | assumption |].
  rewrite int_add_small by (unfold int_range, INT_MIN; lia). lia.
Qed.

Lemma sumMatrices_subtract_out_of_range_witness :
  sumMatrices vector vector true resultTrans main_frame
  = Fault (OutOfBounds vectorData (1 * 3)).
Proof.
  apply (sumMatrices_subtract_out_of_range main_frame vector vector resultTrans
           (mkMatrix 1 3 vectorData) (mkMatrix 1 3 vectorData) (mkMatrix 0 0 NULL)
           [1.5; 2.5; 3.5]%float);
    try (repeat split; fail); try reflexivity;
    try (cbv delta [int_range INT_MIN INT_MAX]; simpl; lia); vm_compute; lia.
Defined.

(** The loop of sumMatrices when the result buffer is the buffer of a: every
    cell of a is read before it is overwritten. *)
Lemma sum_loop_in_place S B O da db la lb n :
  B !! da = Some la -> B !! db = Some lb -> da <> db ->
  n <= Z.of_nat (length la) -> n <= Z.of_nat (length lb) ->
  exists la',
    for_loop 0 n (fun i =>
      x <- peek da i ;;
      y <- peek db i ;;
      poke da i (x + y)%float) (mkMem S B O)
    = Ok tt (mkMem S (<[da := la']> B) O) /\
    length la' = length la /\
    (forall i, 0 <= i < n ->
       exists x y, la !! Z.to_nat i = Some x /\ lb !! Z.to_nat i = Some y /\
                   la' !! Z.to_nat i = Some (x + y)%float) /\
    (forall k : nat, n <= Z.of_nat k -> la' !! k = la !! k).
Proof.
  intros Ha Hb Hab Hna Hnb.
  destruct (Z.le_gt_cases n 0) as [Hn | Hn].
  { exists la. rewrite for_loop_empty by assumption. rewrite insert_id by assumption.
    repeat split; intros; lia. }
  destruct (for_loop_inv
    (fun i st => exists l',
       st = mkMem S (<[da := l']> B) O /\ length l' = length la /\
       (forall k, 0 <= k < i ->
          exists x y, la !! Z.to_nat k = Some x /\ lb !! Z.to_nat k = Some y /\
                      l' !! Z.to_nat k = Some (x + y)%float) /\
       (forall k : nat, i <= Z.of_nat k -> l' !! k = la !! k))
    0 n (fun i => x <- peek da i ;; y <- peek db i ;; poke da i (x + y)%float)
    (mkMem S B O)) as (m' & Hrun & la' & -> & Hlen & Hlo & Hhi).
  - lia.
  - exists la. rewrite insert_id by assumption. repeat split; intros; lia.
  - intros i st Hi (l' & -> & Hlen & Hlo & Hhi).
    destruct (lookup_lt_is_Some_2 la (Z.to_nat i)) as [x Hx]; [lia|].
    destruct (lookup_lt_is_Some_2 lb (Z.to_nat i)) as [y Hy]; [lia|].
    assert (Hx' : l' !! Z.to_nat i = Some x) by (rewrite Hhi by lia; assumption).
    assert (Ha' : <[da := l']> B !! da = Some l') by apply lookup_insert_eq.
    assert (Hb' : <[da := l']> B !! db = Some lb) by now rewrite lookup_insert_ne.
    assert (0 <= i) as Hi0 by lia.
    rewrite (bind_Ok _ _ _ _ _ (peek_eq S _ O da l' Ha' i x Hi0 Hx')).
    rewrite (bind_Ok _ _ _ _ _ (peek_eq S _ O db lb Hb' i y Hi0 Hy)).
    rewrite (poke_eq S _ O da l' Ha') by lia.
    eexists. split; [reflexivity|].
    eexists. split; [now rewrite insert_insert_eq|].
    split; [now rewrite length_insert|]. split.
    + intros k Hk. destruct (Z.eq_dec k i) as [-> | Hne].
      * exists x, y. repeat split; try assumption.
        apply list_lookup_insert_eq. lia.
      * destruct (Hlo k) as (x' & y' & Hx'' & Hy' & Hr'); [lia|].
        exists x', y'. repeat split; try assumption.
        rewrite list_lookup_insert_ne by lia. assumption.
    + intros k Hk. rewrite list_lookup_insert_ne by lia. apply Hhi. lia.
  - exists la'. repeat split; assumption.
Qed.

(** X6: sumMatrices(a, b, false, a), the result being the matrix a itself, adds
    b into a in place, for a shape whose rows * cols fits an int: it succeeds, every cell of a becomes a[i] + b[i], and
    the structs, the buffer of b and the output are as they were. *)
Theorem sumMatrices_accumulate (m : mem) (matrix_a matrix_b : N)
    (a b : Matrix) (la lb : list float) :
  holds m matrix_a a la ->
  holds m matrix_b b lb ->
  rows a = rows b -> cols a = cols b ->
  data a <> data b ->
  rows a * cols a <= INT_MAX ->
  exists la',
    sumMatrices matrix_a matrix_b false matrix_a m
    = Ok true (mkMem (structs m) (<[data a := la']> (blocks m)) (out m)) /\
    length la' = length la /\
    forall i, 0 <= i < rows a * cols a ->
      exists x y, la !! Z.to_nat i = Some x /\ lb !! Z.to_nat i = Some y /\
                  la' !! Z.to_nat i = Some (x + y)%float.
Proof.
  destruct m as [S B O].
  intros (Ha & Hda & Hla) (Hb & Hdb & Hlb) Hrows Hcols Hab Hint. simpl in *.
  assert (Hne : matrix_a <> matrix_b) by (intros ->; congruence).
  destruct (sum_loop_in_place (<[matrix_a := mkMatrix (rows a) (cols a) (data a)]> S) B O
              (data a) (data b) la lb (rows a * cols a))
    as (la' & Hrun & Hlen & Hsum & _); try assumption; try lia.
  exists la'. split; [|split; assumption].
  unfold sumMatrices.
  rewrite (bind_Ok _ _ _ _ _ (checkDimensions_eq S B O _ _ a b Ha Hb)).
  replace ((rows a =? rows b) && (cols a =? cols b)) with true
    by (now rewrite Hrows, Hcols, !Z.eqb_refl).
  simpl.
  do 5 step. rewrite insert_insert_eq. do 5 step.
  rewrite int_mul_small by (unfold int_range, INT_MIN; lia).
  rewrite (bind_Ok _ _ _ _ _ Hrun). simpl.
  unfold ret. f_equal. f_equal.
  apply insert_id. rewrite Ha. now destruct a.
Qed.

Lemma sumMatrices_accumulate_witness :
  exists la',
    sumMatrices matrixA matrixB false matrixA main_frame
    = Ok true (mkMem (structs main_frame) (<[matrixAData := la']> (blocks main_frame))
                     (out main_frame)) /\
    length la' = 6%nat /\
    forall i, 0 <= i < 2 * 3 ->
      exists x y, [1; 2; 3; 4; 5; 6]%float !! Z.to_nat i = Some x /\
                  [6; 5; 4; 3; 2; 1]%float !! Z.to_nat i = Some y /\
                  la' !! Z.to_nat i = Some (x + y)%float.
Proof.
  apply (sumMatrices_accumulate main_frame matrixA matrixB
           (mkMatrix 2 3 matrixAData) (mkMatrix 2 3 matrixBData)
           [1; 2; 3; 4; 5; 6]%float [6; 5; 4; 3; 2; 1]%float);
    try (repeat split; fail); try reflexivity;
    try (cbv delta [int_range INT_MIN INT_MAX]; simpl; lia); vm_compute; lia.
Defined.

(** ** transposeMatrix, in general *)

(** X7: on a matrix that is not square and whose rows * cols fits an int, with
    a result struct of its own and an allocator that grants the buffer,
    transposeMatrix succeeds; the result
    takes the exchanged dimensions and a buffer that did not exist before,
    of cols * rows cells, where the cell (j, i) holds the cell (i, j) of the
    matrix; the matrix, the other structs, the other buffers and the output
    are as they were. *)
Theorem transposeMatrix_rectangular (m : mem) (junk : list float)
    (matrix result : N) (s r0 : Matrix) (l : list float) :
  holds m matrix s l ->
  0 <= rows s -> 0 <= cols s -> rows s <> cols s ->
  rows s * cols s <= INT_MAX ->
  structs m !! result = Some r0 ->
  result <> matrix ->
  exists p t,
    p <> NULL /\ blocks m !! p = None /\
    transposeMatrix (Some junk) matrix result m
    = Ok true (mkMem (<[result := mkMatrix (cols s) (rows s) p]> (structs m))
                     (<[p := t]> (blocks m)) (out m)) /\
    Z.of_nat (length t) = cols s * rows s /\
    forall i j, 0 <= i < rows s -> 0 <= j < cols s ->
      t !! Z.to_nat (j * rows s + i) = l !! Z.to_nat (i * cols s + j).
Proof.
  destruct m as [S B O]. intros (Hs & Hd & Hlen) Hrows Hcols Hnsq Hint Hr Hne.
  simpl in *.
  destruct (transposeMatrix_rect_run S B O junk matrix result s r0 l)
    as (t & Hrun & Hlent & Ht); try assumption.
  destruct (fresh_block B) as [Hnull Hfresh].
  exists (fresh ({[NULL]} ∪ dom B)), t.
  split; [assumption|]. split; [assumption|]. split; [exact Hrun|].
  split; [lia | assumption].
Qed.

Lemma transposeMatrix_rectangular_witness :
  exists p t,
    p <> NULL /\ blocks main_frame !! p = None /\
    transposeMatrix (Some []) matrixA resultTrans main_frame
    = Ok true (mkMem (<[resultTrans := mkMatrix 3 2 p]> (structs main_frame))
                     (<[p := t]> (blocks main_frame)) (out main_frame)) /\
    Z.of_nat (length t) = 3 * 2 /\
    forall i j, 0 <= i < 2 -> 0 <= j < 3 ->
      t !! Z.to_nat (j * 2 + i) = [1; 2; 3; 4; 5; 6]%float !! Z.to_nat (i * 3 + j).
Proof.
  apply (transposeMatrix_rectangular main_frame [] matrixA resultTrans
           (mkMatrix 2 3 matrixAData) (mkMatrix 0 0 NULL) [1; 2; 3; 4; 5; 6]%float);
    try (repeat split; fail); try reflexivity;
    try (cbv delta [int_range INT_MIN INT_MAX]; simpl; lia); vm_compute; lia.
Defined.

(** X8: on a matrix that is not square, when the allocator returns NULL,
    transposeMatrix prints its message and returns false; no buffer is
    written and the matrix is as it was, but the result struct has already
    been given the exchanged dimensions and the NULL pointer. *)
Theorem transposeMatrix_allocation_failure (m : mem) (matrix result : N)
    (s r0 : Matrix) :
  structs m !! matrix = Some s ->
  structs m !! result = Some r0 ->
  result <> matrix ->
  rows s <> cols s ->
  transposeMatrix None matrix result m
  = Ok false (mkMem (<[result := mkMatrix (cols s) (rows s) NULL]> (structs m))
                    (blocks m)
                    (out m ++ ["Memory allocation failed for transposed matrix.
"])).
Proof.
  destruct m as [S B O]. simpl. intros Hs Hr Hne Hnsq.
  unfold transposeMatrix.
  rewrite (bind_Ok _ _ _ _ _ (isSquare_eq S B O matrix s Hs)).
  apply Z.eqb_neq in Hnsq. rewrite Hnsq.
  do 6 step. rewrite insert_insert_eq.
  erewrite bind_Ok by (unfold malloc; reflexivity).
  do 2 step. rewrite insert_insert_eq. step. reflexivity.
Qed.

Lemma transposeMatrix_allocation_failure_witness :
  transposeMatrix None matrixA resultTrans main_frame
  = Ok false (mkMem (<[resultTrans := mkMatrix 3 2 NULL]> (structs main_frame))
                    (blocks main_frame)
                    (out main_frame ++ ["Memory allocation failed for transposed matrix.
"])).
Proof.
  apply (transposeMatrix_allocation_failure main_frame matrixA resultTrans
           (mkMatrix 2 3 matrixAData) (mkMatrix 0 0 NULL));
    try reflexivity; try (cbv delta [int_range INT_MIN INT_MAX]; simpl; lia);
    vm_compute; lia.
Defined.

(** The loops of the out-of-place transposition when they read from and write
    to one c x c buffer: every access is inside the buffer. *)
Lemma copy_onto_itself S B O p c t :
  B !! p = Some t -> Z.of_nat (length t) = c * c -> 0 <= c ->
  exists t',
    for_loop 0 c (fun i =>
      for_loop 0 c (fun j =>
        x <- peek p (i * c + j) ;;
        poke p (j * c + i) x)) (mkMem S B O)
    = Ok tt (mkMem S (<[p := t']> B) O) /\
    length t' = length t.
Proof.
  intros Hp Hlen Hc.
  set (I := fun (_ : Z) st => exists t', st = mkMem S (<[p := t']> B) O
                                         /\ length t' = length t).
  destruct (for_loop_inv I 0 c
    (fun i => for_loop 0 c (fun j => x <- peek p (i * c + j) ;; poke p (j * c + i) x))
    (mkMem S B O)) as (m' & Hrun & t' & -> & Hlen').
  - lia.
  - exists t. split; [now rewrite insert_id | reflexivity].
  - intros i st Hi Hst.
    destruct (for_loop_inv I 0 c
      (fun j => x <- peek p (i * c + j) ;; poke p (j * c + i) x) st)
      as (m' & Hrun & Hm'); [lia | assumption | | eauto].
    intros j st' Hj (t1 & -> & Hlen1).
    destruct (lookup_lt_is_Some_2 t1 (Z.to_nat (i * c + j))) as [x Hx]; [nia|].
    rewrite (bind_Ok _ _ _ _ _
      (peek_eq S _ O p t1 (lookup_insert_eq _ _ _) (i * c + j) x ltac:(nia) Hx)).
    rewrite (poke_eq S _ O p t1 (lookup_insert_eq _ _ _)) by nia.
    eexists. split; [reflexivity|].
    eexists. split; [now rewrite insert_insert_eq | now rewrite length_insert].
  - exists t'. split; assumption.
Qed.

(** X9: transposeMatrix(m, m), the result being the matrix itself, does not
    transpose a matrix that is not square (cols * cols fitting an int).  The
    first store into the result
    overwrites m->rows before it is read, so that m ends up declared
    cols x cols over the buffer the allocator granted; the loops then copy
    inside that new buffer, and the old buffer of m, which m no longer points
    to, is left as it is. *)
Theorem transposeMatrix_onto_itself (m : mem) (junk : list float) (matrix : N)
    (s : Matrix) :
  structs m !! matrix = Some s ->
  rows s <> cols s -> 0 <= cols s ->
  cols s * cols s <= INT_MAX ->
  exists p t,
    p <> NULL /\ blocks m !! p = None /\
    transposeMatrix (Some junk) matrix matrix m
    = Ok true (mkMem (<[matrix := mkMatrix (cols s) (cols s) p]> (structs m))
                     (<[p := t]> (blocks m)) (out m)) /\
    Z.of_nat (length t) = cols s * cols s.
Proof.
  destruct m as [S B O]. simpl. intros Hs Hnsq Hc Hint.
  destruct (fresh_block B) as [Hnull Hfresh].
  remember (fresh ({[NULL]} ∪ dom B)) as p eqn:Hp.
  destruct (copy_onto_itself
              (<[matrix := mkMatrix (cols s) (cols s) p]> S)
              (<[p := resize (Z.to_nat (cols s * cols s)) 0%float junk]> B) O
              p (cols s) (resize (Z.to_nat (cols s * cols s)) 0%float junk))
    as (t & Hrun & Hlent); try assumption.
  { apply lookup_insert_eq. }
  { rewrite length_resize. nia. }
  exists p, t. split; [assumption|]. split; [assumption|]. split.
  - unfold transposeMatrix.
    rewrite (bind_Ok _ _ _ _ _ (isSquare_eq S B O matrix s Hs)).
    apply Z.eqb_neq in Hnsq. rewrite Hnsq.
    do 6 step. rewrite insert_insert_eq.
    rewrite int_mul_small by int_ok.
    rewrite (bind_Ok _ _ _ _ _ (malloc_eq _ B O junk (cols s * cols s) ltac:(nia))).
    rewrite <- Hp. do 2 step. rewrite insert_insert_eq.
    apply N.eqb_neq in Hnull. rewrite Hnull.
    do 4 step.
    erewrite bind_Ok; [| erewrite for_loop_ext; [exact Hrun|]].
    2: { intros i Hi st. apply for_loop_ext. intros j Hj st'.
         rewrite !int_mul_small by int_ok. reflexivity. }
    rewrite insert_insert_eq. reflexivity.
  - rewrite Hlent, length_resize. nia.
Qed.

Lemma transposeMatrix_onto_itself_witness :
  exists p t,
    p <> NULL /\ blocks main_frame !! p = None /\
    transposeMatrix (Some []) matrixA matrixA main_frame
    = Ok true (mkMem (<[matrixA := mkMatrix 3 3 p]> (structs main_frame))
                     (<[p := t]> (blocks main_frame)) (out main_frame)) /\
    Z.of_nat (length t) = 3 * 3.
Proof.
  apply (transposeMatrix_onto_itself main_frame [] matrixA (mkMatrix 2 3 matrixAData));
    try reflexivity; try (cbv delta [int_range INT_MIN INT_MAX]; simpl; lia);
    vm_compute; lia.
Defined.

(** ** printMatrix *)

(** The inner loop of printMatrix writes the cells of the row r. *)
Lemma print_row fmt S B O d l cs r :
  B !! d = Some l -> 0 <= r -> 0 <= cs ->
  (r + 1) * cs <= Z.of_nat (length l) ->
  for_loop 0 cs (fun c =>
    x <- peek d (r * cs + c) ;;
    printf (String.append (fmt x) " ")) (mkMem S B O)
  = Ok tt (mkMem S B
             (O ++ ((fun x => String.append (fmt x) " ")
                      <$> take (Z.to_nat cs) (drop (Z.to_nat r * Z.to_nat cs) l)))).
Proof.
  intros Hd Hr Hcs Hlen.
  set (f := fun x => String.append (fmt x) " ").
  set (row := drop (Z.to_nat r * Z.to_nat cs) l).
  destruct (for_loop_inv
    (fun c st => st = mkMem S B (O ++ (f <$> take (Z.to_nat c) row)))
    0 cs (fun c => x <- peek d (r * cs + c) ;; printf (String.append (fmt x) " "))
    (mkMem S B O)) as (m' & Hrun & ->).
  - lia.
  - simpl. now rewrite app_nil_r.
  - intros c st Hc ->.
    destruct (lookup_lt_is_Some_2 l (Z.to_nat (r * cs + c))) as [x Hx]; [nia|].
    rewrite (bind_Ok _ _ _ _ _ (peek_eq S B _ d l Hd (r * cs + c) x ltac:(nia) Hx)).
    eexists. split; [reflexivity|]. simpl. f_equal.
    replace (Z.to_nat (c + 1)) with (Datatypes.S (Z.to_nat c)) by lia.
    rewrite (take_S_r row (Z.to_nat c) x).
    + rewrite fmap_app, app_assoc. reflexivity.
    + unfold row. rewrite lookup_drop. rewrite <- Hx. f_equal. nia.
  - exact Hrun.
Qed.

(** X10: on a matrix with non-negative dimensions whose buffer holds its
    rows * cols cells, rows * cols fitting an int, printMatrix runs through, writes nothing into memory,
    and appends to the output the text of every cell followed by a space, row
    after row in row-major order, with a line break after each row. *)
Theorem printMatrix_output (fmt : float -> string) (m : mem) (matrix : N)
    (s : Matrix) (l : list float) :
  holds m matrix s l ->
  0 <= rows s -> 0 <= cols s ->
  rows s * cols s <= INT_MAX ->
  printMatrix fmt matrix m
  = Ok tt (mkMem (structs m) (blocks m)
                 (out m ++ render fmt l (Z.to_nat (rows s)) (Z.to_nat (cols s)))).
Proof.
  destruct m as [S B O]. intros (Hs & Hd & Hlen) Hrows Hcols Hint. simpl in *.
  unfold printMatrix. do 3 step.
  destruct (for_loop_inv
    (fun r st => st = mkMem S B
       (O ++ concat (render_row fmt l (Z.to_nat (cols s)) <$> seq 0 (Z.to_nat r))))
    0 (rows s)
    (fun r => for_loop 0 (cols s) (fun c =>
                x <- peek (data s) (r * cols s + c) ;;
                printf (String.append (fmt x) " ")) ;;;
              printf "
")
    (mkMem S B O)) as (m' & Hrun & ->).
  - assumption.
  - simpl. now rewrite app_nil_r.
  - intros r st Hr ->.
    rewrite (bind_Ok _ _ _ _ _
      (print_row fmt S B _ (data s) l (cols s) r Hd ltac:(lia) Hcols ltac:(nia))).
    eexists. split; [reflexivity|]. simpl. f_equal.
    replace (Z.to_nat (r + 1)) with (Datatypes.S (Z.to_nat r)) by lia.
    rewrite seq_S, fmap_app, concat_app. simpl.
    unfold render_row at 3. rewrite app_nil_r, <- !app_assoc. reflexivity.
  - erewrite for_loop_ext; [exact Hrun|].
    intros r Hr st. rewrite int_mul_small by int_ok. reflexivity.
Qed.

Lemma printMatrix_output_witness :
  printMatrix (fun _ => "x") matrixA main_frame
  = Ok tt (mkMem (structs main_frame) (blocks main_frame)
                 (out main_frame
                  ++ render (fun _ => "x") [1; 2; 3; 4; 5; 6]%float (Z.to_nat 2) (Z.to_nat 3))).
Proof.
  apply (printMatrix_output (fun _ => "x") main_frame matrixA
           (mkMatrix 2 3 matrixAData) [1; 2; 3; 4; 5; 6]%float);
    [repeat split | simpl; lia | simpl; lia | unfold INT_MAX; simpl; lia].
Defined.

(** ** multiplyMatrices, the product *)

(** The sum of a cell is defined when its terms are inside the buffers. *)
Lemma dot_defined la lb ca cb r c (n : nat) :
  0 <= r -> 0 <= c < cb -> Z.of_nat n <= ca ->
  (r + 1) * ca <= Z.of_nat (length la) -> ca * cb <= Z.of_nat (length lb) ->
  is_Some (dot la lb ca cb r c n).
Proof.
  intros Hr Hc Hn Hla Hlb. induction n as [|n IH]; simpl; [eauto|].
  destruct IH as [acc ->]; [lia|].
  destruct (lookup_lt_is_Some_2 la (Z.to_nat (r * ca + Z.of_nat n))) as [x ->]; [nia|].
  destruct (lookup_lt_is_Some_2 lb (Z.to_nat (Z.of_nat n * cb + c))) as [y ->]; [nia|].
  eauto.
Qed.

(** The innermost loop of multiplyMatrices accumulates the sum of the cell
    (r, c) in place, at the linear index idx of the result. *)
Lemma dot_loop S B O da db dr la lb l' ca cb r c idx :
  B !! da = Some la -> B !! db = Some lb -> dr <> da -> dr <> db ->
  0 <= r -> 0 <= c < cb -> 0 <= ca ->
  (r + 1) * ca <= Z.of_nat (length la) -> ca * cb <= Z.of_nat (length lb) ->
  0 <= idx < Z.of_nat (length l') ->
  exists v,
    dot la lb ca cb r c (Z.to_nat ca) = Some v /\
    for_loop 0 ca (fun k =>
      acc <- peek dr idx ;;
      x <- peek da (r * ca + k) ;;
      y <- peek db (k * cb + c) ;;
      poke dr idx (acc + x * y)%float)
      (mkMem S (<[dr := <[Z.to_nat idx := 0%float]> l']> B) O)
    = Ok tt (mkMem S (<[dr := <[Z.to_nat idx := v]> l']> B) O).
Proof.
  intros Ha Hb Hra Hrb Hr Hc Hca Hla Hlb Hidx.
  destruct (for_loop_inv
    (fun k st => exists v,
       dot la lb ca cb r c (Z.to_nat k) = Some v /\
       st = mkMem S (<[dr := <[Z.to_nat idx := v]> l']> B) O)
    0 ca
    (fun k => acc <- peek dr idx ;; x <- peek da (r * ca + k) ;;
              y <- peek db (k * cb + c) ;; poke dr idx (acc + x * y)%float)
    (mkMem S (<[dr := <[Z.to_nat idx := 0%float]> l']> B) O))
    as (m' & Hrun & v & Hv & ->).
  - assumption.
  - exists 0%float. split; reflexivity.
  - intros k st Hk (acc & Hacc & ->).
    destruct (lookup_lt_is_Some_2 la (Z.to_nat (r * ca + k))) as [x Hx]; [nia|].
    destruct (lookup_lt_is_Some_2 lb (Z.to_nat (k * cb + c))) as [y Hy]; [nia|].
    set (l1 := <[Z.to_nat idx := acc]> l').
    assert (Hl1 : l1 !! Z.to_nat idx = Some acc)
      by (apply list_lookup_insert_eq; lia).
    assert (Hdr : <[dr := l1]> B !! dr = Some l1) by apply lookup_insert_eq.
    assert (Hda : <[dr := l1]> B !! da = Some la) by now rewrite lookup_insert_ne.
    assert (Hdb : <[dr := l1]> B !! db = Some lb) by now rewrite lookup_insert_ne.
    rewrite (bind_Ok _ _ _ _ _ (peek_eq S _ O dr l1 Hdr idx acc ltac:(lia) Hl1)).
    rewrite (bind_Ok _ _ _ _ _ (peek_eq S _ O da la Hda (r * ca + k) x ltac:(nia) Hx)).
    rewrite (bind_Ok _ _ _ _ _ (peek_eq S _ O db lb Hdb (k * cb + c) y ltac:(nia) Hy)).
    rewrite (poke_eq S _ O dr l1 Hdr) by (unfold l1; rewrite length_insert; lia).
    eexists. split; [reflexivity|].
    exists (acc + x * y)%float. split.
    + replace (Z.to_nat (k + 1)) with (Datatypes.S (Z.to_nat k)) by lia.
      simpl. rewrite Hacc. rewrite Z2Nat.id by lia. now rewrite Hx, Hy.
    + unfold l1. now rewrite insert_insert_eq, list_insert_insert_eq.
  - exists v. split; assumption.
Qed.

(** One cell of the product: the store of 0 and the innermost loop. *)
Lemma product_cell S B O da db dr la lb lr l' ra ca cb r c :
  B !! da = Some la -> B !! db = Some lb -> dr <> da -> dr <> db ->
  0 <= r < ra -> 0 <= c < cb -> 0 <= ca ->
  ra * ca <= Z.of_nat (length la) -> ca * cb <= Z.of_nat (length lb) ->
  ra * cb <= Z.of_nat (length lr) ->
  product_upto la lb ra ca cb (r * cb + c) lr l' ->
  exists l'',
    bind (poke dr (r * cb + c) 0%float) (fun _ =>
      for_loop 0 ca (fun k =>
        acc <- peek dr (r * cb + c) ;;
        x <- peek da (r * ca + k) ;;
        y <- peek db (k * cb + c) ;;
        poke dr (r * cb + c) (acc + x * y)%float))
      (mkMem S (<[dr := l']> B) O)
    = Ok tt (mkMem S (<[dr := l'']> B) O) /\
    product_upto la lb ra ca cb (r * cb + c + 1) lr l''.
Proof.
  intros Ha Hb Hra Hrb Hr Hc Hca Hla Hlb Hlr (Hlen & Hdone & Hrest).
  assert (Hidx : 0 <= r * cb + c < Z.of_nat (length l')) by nia.
  destruct (dot_loop S B O da db dr la lb l' ca cb r c (r * cb + c))
    as (v & Hv & Hrun); try assumption; try lia; try nia.
  exists (<[Z.to_nat (r * cb + c) := v]> l'). split.
  - rewrite (bind_Ok _ _ _ _ _
      (poke_eq S _ O dr l' (lookup_insert_eq _ _ _) (r * cb + c) 0%float Hidx)).
    rewrite insert_insert_eq. exact Hrun.
  - split; [now rewrite length_insert|]. split.
    + intros r' c' Hr' Hc' Hlt.
      destruct (Z.eq_dec (r' * cb + c') (r * cb + c)) as [Heq | Hne].
      * assert (r' = r) by nia. subst r'. assert (c' = c) by lia. subst c'.
        rewrite list_lookup_insert_eq by lia. now rewrite Hv.
      * rewrite list_lookup_insert_ne by nia. apply Hdone; try assumption. lia.
    + intros k Hk. rewrite list_lookup_insert_ne by lia. apply Hrest. lia.
Qed.

(** The three loops of multiplyMatrices. *)
Lemma product_loops S B O da db dr la lb lr ra ca cb :
  B !! da = Some la -> B !! db = Some lb -> B !! dr = Some lr ->
  dr <> da -> dr <> db ->
  0 <= ra -> 0 <= ca -> 0 <= cb ->
  ra * ca <= Z.of_nat (length la) -> ca * cb <= Z.of_nat (length lb) ->
  ra * cb <= Z.of_nat (length lr) ->
  exists l',
    for_loop 0 ra (fun r =>
      for_loop 0 cb (fun c =>
        poke dr (r * cb + c) 0%float ;;;
        for_loop 0 ca (fun k =>
          acc <- peek dr (r * cb + c) ;;
          x <- peek da (r * ca + k) ;;
          y <- peek db (k * cb + c) ;;
          poke dr (r * cb + c) (acc + x * y)%float))) (mkMem S B O)
    = Ok tt (mkMem S (<[dr := l']> B) O) /\
    product_upto la lb ra ca cb (ra * cb) lr l'.
Proof.
  intros Ha Hb Hr Hra Hrb Hra0 Hca Hcb Hla Hlb Hlr.
  destruct (for_loop_inv
    (fun r st => exists l', st = mkMem S (<[dr := l']> B) O /\
                            product_upto la lb ra ca cb (r * cb) lr l')
    0 ra
    (fun r => for_loop 0 cb (fun c =>
       poke dr (r * cb + c) 0%float ;;;
       for_loop 0 ca (fun k =>
         acc <- peek dr (r * cb + c) ;; x <- peek da (r * ca + k) ;;
         y <- peek db (k * cb + c) ;; poke dr (r * cb + c) (acc + x * y)%float)))
    (mkMem S B O)) as (m' & Hrun & l' & -> & Hl').
  - assumption.
  - exists lr. split; [now rewrite insert_id|].
    split; [reflexivity|]. split; [intros; nia | reflexivity].
  - intros r st Hr0 (l1 & -> & Hl1).
    destruct (for_loop_inv
      (fun c st => exists l', st = mkMem S (<[dr := l']> B) O /\
                              product_upto la lb ra ca cb (r * cb + c) lr l')
      0 cb
      (fun c => poke dr (r * cb + c) 0%float ;;;
         for_loop 0 ca (fun k =>
           acc <- peek dr (r * cb + c) ;; x <- peek da (r * ca + k) ;;
           y <- peek db (k * cb + c) ;; poke dr (r * cb + c) (acc + x * y)%float))
      (mkMem S (<[dr := l1]> B) O)) as (m' & Hrun & l2 & -> & Hl2).
    + assumption.
    + exists l1. split; [reflexivity|]. now rewrite Z.add_0_r.
    + intros c st Hc (l2 & -> & Hl2).
      destruct (product_cell S B O da db dr la lb lr l2 ra ca cb r c)
        as (l3 & Hrun & Hl3); try assumption.
      eexists. split; [exact Hrun|]. exists l3. split; [reflexivity|].
      now replace (r * cb + (c + 1)) with (r * cb + c + 1) by lia.
    + eexists. split; [exact Hrun|]. exists l2. split; [reflexivity|].
      now replace ((r + 1) * cb) with (r * cb + cb) by lia.
  - exists l'. split; assumption.
Qed.

(** multiplyMatrices on compatible matrices, with a result buffer of its own
    that holds the rows a * cols b cells the loops write. *)
Lemma multiplyMatrices_run S B O matrix_a matrix_b result a b r la lb lr :
  S !! matrix_a = Some a -> B !! data a = Some la ->
  Z.of_nat (length la) = rows a * cols a ->
  S !! matrix_b = Some b -> B !! data b = Some lb ->
  Z.of_nat (length lb) = rows b * cols b ->
  cols a = rows b ->
  0 <= rows a -> 0 <= cols a -> 0 <= cols b ->
  rows a * cols a <= INT_MAX -> rows b * cols b <= INT_MAX ->
  rows a * cols b <= INT_MAX ->
  S !! result = Some r -> B !! data r = Some lr ->
  rows a * cols b <= Z.of_nat (length lr) ->
  data r <> data a -> data r <> data b ->
  exists lr',
    multiplyMatrices matrix_a matrix_b result (mkMem S B O)
    = Ok true (mkMem (<[result := mkMatrix (cols a) (cols b) (data r)]> S)
                     (<[data r := lr']> B) O) /\
    product_upto la lb (rows a) (cols a) (cols b) (rows a * cols b) lr lr'.
Proof.
  intros Ha Hda Hla Hb Hdb Hlb Hab Hra Hca Hcb Hia Hib Hir Hr Hdr Hlr Hrna Hrnb.
  assert (Hpa : result <> matrix_a) by (intros ->; congruence).
  assert (Hpb : result <> matrix_b) by (intros ->; congruence).
  destruct (product_loops (<[result := mkMatrix (cols a) (cols b) (data r)]> S) B O
              (data a) (data b) (data r) la lb lr (rows a) (cols a) (cols b))
    as (lr' & Hrun & Hlr'); try assumption; try lia.
  exists lr'. split; [|assumption].
  unfold multiplyMatrices. do 2 step.
  replace (cols a =? rows b) with true by (symmetry; now apply Z.eqb_eq).
  simpl. do 4 step. rewrite insert_insert_eq. do 7 step.
  erewrite bind_Ok; [| erewrite for_loop_ext; [exact Hrun|]]; [reflexivity|].
  intros i Hi st. rewrite !int_mul_small by int_ok.
  apply for_loop_ext. intros j Hj st'. apply bind_ext. intros _ st''.
  apply for_loop_ext. intros k Hk st3. rewrite !int_mul_small by int_ok.
  reflexivity.
Qed.

(** X11: the product.  For a and b with a.cols = b.rows and non-negative
    dimensions, the cell counts of a, of b and of the product fitting an int,
    and a result whose buffer is not the buffer of a or b and holds
    at least a.rows * b.cols cells, multiplyMatrices succeeds; the cell of
    linear index r * b.cols + c of the result, for r < a.rows and c < b.cols,
    holds the sum of the a[r][k] * b[k][c] for k < a.cols, added to 0 in the
    order of k; the result struct is declared a.cols x b.cols; the cells of
    the result from a.rows * b.cols on, the other buffers (those of a and b
    among them), the other structs and the output are as they were. *)
Theorem multiplyMatrices_product (m : mem) (matrix_a matrix_b result : N)
    (a b r : Matrix) (la lb lr : list float) :
  holds m matrix_a a la ->
  holds m matrix_b b lb ->
  cols a = rows b ->
  0 <= rows a -> 0 <= cols a -> 0 <= cols b ->
  rows a * cols a <= INT_MAX -> rows b * cols b <= INT_MAX ->
  rows a * cols b <= INT_MAX ->
  structs m !! result = Some r ->
  blocks m !! data r = Some lr ->
  rows a * cols b <= Z.of_nat (length lr) ->
  data r <> data a -> data r <> data b ->
  exists lr',
    multiplyMatrices matrix_a matrix_b result m
    = Ok true (mkMem (<[result := mkMatrix (cols a) (cols b) (data r)]> (structs m))
                     (<[data r := lr']> (blocks m)) (out m)) /\
    length lr' = length lr /\
    (forall i j, 0 <= i < rows a -> 0 <= j < cols b ->
       exists v, dot la lb (cols a) (cols b) i j (Z.to_nat (cols a)) = Some v /\
                 lr' !! Z.to_nat (i * cols b + j) = Some v) /\
    (forall k : nat, rows a * cols b <= Z.of_nat k -> lr' !! k = lr !! k).
Proof.
  destruct m as [S B O].
  intros (Ha & Hda & Hla) (Hb & Hdb & Hlb) Hab Hra Hca Hcb Hia Hib Hir
    Hr Hdr Hlr Hrna Hrnb.
  simpl in *.
  destruct (multiplyMatrices_run S B O matrix_a matrix_b result a b r la lb lr)
    as (lr' & Hrun & Hlen & Hdone & Hrest); try assumption.
  exists lr'. split; [exact Hrun|]. split; [assumption|]. split; [|assumption].
  intros i j Hi Hj.
  destruct (dot_defined la lb (cols a) (cols b) i j (Z.to_nat (cols a)))
    as [v Hv]; try lia; try nia.
  exists v. split; [assumption|]. rewrite Hdone by (try assumption; nia). assumption.
Qed.

Lemma multiplyMatrices_product_witness :
  exists lr',
    multiplyMatrices matrixA matrixC resultMult main_frame
    = Ok true (mkMem (<[resultMult := mkMatrix 3 2 resultMultData]> (structs main_frame))
                     (<[resultMultData := lr']> (blocks main_frame)) (out main_frame)) /\
    length lr' = 4%nat /\
    (forall i j, 0 <= i < 2 -> 0 <= j < 2 ->
       exists v, dot [1; 2; 3; 4; 5; 6]%float [7; 8; 9; 10; 11; 12]%float
                     3 2 i j (Z.to_nat 3) = Some v /\
                 lr' !! Z.to_nat (i * 2 + j) = Some v) /\
    (forall k : nat, 2 * 2 <= Z.of_nat k -> lr' !! k = [0; 0; 0; 0]%float !! k).
Proof.
  apply (multiplyMatrices_product main_frame matrixA matrixC resultMult
           (mkMatrix 2 3 matrixAData) (mkMatrix 3 2 matrixCData)
           (mkMatrix 2 2 resultMultData)
           [1; 2; 3; 4; 5; 6]%float [7; 8; 9; 10; 11; 12]%float [0; 0; 0; 0]%float);
    try (repeat split; fail); try reflexivity;
    try (cbv delta [int_range INT_MIN INT_MAX]; simpl; lia); vm_compute; lia.
Defined.

(** ** printMatrix on a buffer that is too short *)

(** printMatrix stops on the first cell outside of the buffer, when the
    buffer is shorter than the declared rows * cols cells. *)
Lemma printMatrix_fault fmt S B O matrix s l :
  S !! matrix = Some s -> B !! data s = Some l ->
  0 < cols s -> Z.of_nat (length l) < rows s * cols s ->
  Z.of_nat (length l) <= INT_MAX ->
  printMatrix fmt matrix (mkMem S B O)
  = Fault (OutOfBounds (data s) (Z.of_nat (length l))).
Proof.
  intros Hs Hd Hcs Hlen Hint.
  set (len := Z.of_nat (length l)) in *.
  pose proof (Z.div_mod len (cols s) ltac:(lia)) as Hdm.
  pose proof (Z.mod_pos_bound len (cols s) Hcs) as Hmod.
  assert (0 <= len / cols s) as Hk0 by (apply Z.div_pos; lia).
  assert (len / cols s < rows s) as Hk1 by (apply Z.div_lt_upper_bound; lia).
  unfold printMatrix. do 3 step.
  apply (for_loop_fault (fun _ st => exists O', st = mkMem S B O') 0 (len / cols s)).
  - lia.
  - eauto.
  - intros r st Hr (O' & ->).
    rewrite int_mul_small by int_ok.
    rewrite (bind_Ok _ _ _ _ _
      (print_row fmt S B O' (data s) l (cols s) r Hd ltac:(lia) ltac:(lia) ltac:(nia))).
    eexists. split; [reflexivity|]. eauto.
  - intros st (O' & ->). apply bind_Fault.
    rewrite int_mul_small by int_ok.
    apply (for_loop_fault (fun _ st => exists O'', st = mkMem S B O'')
             0 (len mod cols s)).
    + lia.
    + eauto.
    + intros c st Hc (O'' & ->).
      destruct (lookup_lt_is_Some_2 l (Z.to_nat (len / cols s * cols s + c)))
        as [x Hx]; [nia|].
      rewrite (bind_Ok _ _ _ _ _
        (peek_eq S B O'' (data s) l Hd (len / cols s * cols s + c) x ltac:(nia) Hx)).
      eexists. split; [reflexivity|]. eauto.
    + intros st (O'' & ->). apply bind_Fault.
      replace len with (len / cols s * cols s + len mod cols s) at 3 by lia.
      apply (peek_out_of_bounds S B O'' (data s) l Hd). fold len. lia.
Qed.

(** X12: printMatrix trusts the declared dimensions: on a struct whose buffer
    holds fewer than rows * cols cells (cols positive, the length of the
    buffer fitting an int), it stops on the access to the first index outside
    of the buffer. *)
Theorem printMatrix_short_buffer (fmt : float -> string) (m : mem) (matrix : N)
    (s : Matrix) (l : list float) :
  structs m !! matrix = Some s ->
  blocks m !! data s = Some l ->
  0 < cols s ->
  Z.of_nat (length l) < rows s * cols s ->
  Z.of_nat (length l) <= INT_MAX ->
  printMatrix fmt matrix m = Fault (OutOfBounds (data s) (Z.of_nat (length l))).
Proof.
  destruct m as [S B O]. simpl. intros Hs Hd Hcs Hlen Hint.
  now apply printMatrix_fault.
Qed.

Lemma printMatrix_short_buffer_witness :
  printMatrix (fun _ => "x") resultSum
    (with_structs (insert resultSum (mkMatrix 3 3 resultData)) main_frame)
  = Fault (OutOfBounds resultData (Z.of_nat 6)).
Proof.
  apply (printMatrix_short_buffer (fun _ => "x")
           (with_structs (insert resultSum (mkMatrix 3 3 resultData)) main_frame)
           resultSum (mkMatrix 3 3 resultData) [0; 0; 0; 0; 0; 0]%float);
    try reflexivity; unfold INT_MAX; simpl; lia.
Defined.

(** X13: the result of multiplyMatrices cannot always be printed.  When a has
    fewer rows than columns (the cell counts of a and b fitting an int) and
    the result buffer holds exactly the
    a.rows * b.cols cells of the product, the result struct is declared
    a.cols x b.cols, and printMatrix on it, after the product has been
    computed, leaves the buffer at the index a.rows * b.cols. *)
Theorem multiplyMatrices_then_printMatrix (fmt : float -> string) (m : mem)
    (matrix_a matrix_b result : N) (a b r : Matrix) (la lb lr : list float) :
  holds m matrix_a a la ->
  holds m matrix_b b lb ->
  cols a = rows b ->
  0 <= rows a -> rows a < cols a -> 0 < cols b ->
  rows a * cols a <= INT_MAX -> rows b * cols b <= INT_MAX ->
  structs m !! result = Some r ->
  blocks m !! data r = Some lr ->
  Z.of_nat (length lr) = rows a * cols b ->
  data r <> data a -> data r <> data b ->
  (ok <- multiplyMatrices matrix_a matrix_b result ;; printMatrix fmt result) m
  = Fault (OutOfBounds (data r) (rows a * cols b)).
Proof.
  destruct m as [S B O].
  intros (Ha & Hda & Hla) (Hb & Hdb & Hlb) Hab Hra Hlt Hcb Hia Hib
    Hr Hdr Hlr Hrna Hrnb.
  simpl in *.
  destruct (multiplyMatrices_run S B O matrix_a matrix_b result a b r la lb lr)
    as (lr' & Hrun & Hlen & _); try assumption; try lia; try nia.
  rewrite (bind_Ok _ _ _ _ _ Hrun).
  rewrite <- Hlr, <- Hlen.
  apply (printMatrix_fault fmt _ _ O result (mkMatrix (cols a) (cols b) (data r)) lr');
    simpl; [apply lookup_insert_eq | apply lookup_insert_eq | assumption | nia | nia].
Qed.

Lemma multiplyMatrices_then_printMatrix_witness :
  (ok <- multiplyMatrices matrixA matrixC resultMult ;;
   printMatrix (fun _ => "x") resultMult) main_frame
  = Fault (OutOfBounds resultMultData (2 * 2)).
Proof.
  apply (multiplyMatrices_then_printMatrix (fun _ => "x") main_frame
           matrixA matrixC resultMult
           (mkMatrix 2 3 matrixAData) (mkMatrix 3 2 matrixCData)
           (mkMatrix 2 2 resultMultData)
           [1; 2; 3; 4; 5; 6]%float [7; 8; 9; 10; 11; 12]%float [0; 0; 0; 0]%float);
    try (repeat split; fail); try reflexivity;
    try (cbv delta [int_range INT_MIN INT_MAX]; simpl; lia); vm_compute; lia.
Defined.

(** ** transposeMatrix, then sumMatrices *)

(** sumMatrices without subtraction on explicit stores; a and b may share
    their buffer. *)
Lemma sumMatrices_add_run S B O matrix_a matrix_b result a b r la lb lr :
  S !! matrix_a = Some a -> B !! data a = Some la ->
  S !! matrix_b = Some b -> B !! data b = Some lb ->
  rows a = rows b -> cols a = cols b ->
  S !! result = Some r -> B !! data r = Some lr ->
  result <> matrix_a -> result <> matrix_b ->
  data r <> data a -> data r <> data b ->
  rows a * cols a <= Z.of_nat (length la) ->
  rows a * cols a <= Z.of_nat (length lb) ->
  rows a * cols a <= Z.of_nat (length lr) ->
  0 <= rows a * cols a <= INT_MAX ->
  exists lr',
    sumMatrices matrix_a matrix_b false result (mkMem S B O)
    = Ok true (mkMem (<[result := mkMatrix (rows a) (cols a) (data r)]> S)
                     (<[data r := lr']> B) O) /\
    forall i, 0 <= i < rows a * cols a ->
      exists x y, la !! Z.to_nat i = Some x /\ lb !! Z.to_nat i = Some y /\
                  lr' !! Z.to_nat i = Some (x + y)%float.
Proof.
  intros Ha Hda Hb Hdb Hrows Hcols Hr Hdr Hpa Hpb Hra Hrb Hla Hlb Hlr Hint.
  destruct (sum_loop (<[result := mkMatrix (rows a) (cols a) (data r)]> S) B O
              (data a) (data b) (data r) la lb lr (rows a * cols a))
    as (lr' & Hrun & _ & Hsum & _); try assumption.
  exists lr'. split; [|assumption].
  unfold sumMatrices.
  rewrite (bind_Ok _ _ _ _ _ (checkDimensions_eq S B O _ _ a b Ha Hb)).
  replace ((rows a =? rows b) && (cols a =? cols b)) with true
    by (now rewrite Hrows, Hcols, !Z.eqb_refl).
  simpl.
  do 5 step. rewrite insert_insert_eq. do 5 step.
  rewrite int_mul_small by (unfold int_range, INT_MIN; lia).
  rewrite (bind_Ok _ _ _ _ _ Hrun). reflexivity.
Qed.

(** X14: the sum of a square matrix and its transpose cannot be taken from the
    result of transposeMatrix.  After transposeMatrix(a, t) on a square a
    whose rows * cols fits an int, the
    structs a and t share the transposed buffer, and sumMatrices(a, t, false, r)
    stores in the cell (i, j) of r twice the old cell (j, i) of a, where the
    sum of a and its transpose has a[i][j] + a[j][i]. *)
Theorem transposeMatrix_then_sumMatrices (m : mem) (answer : option (list float))
    (matrix_a transposed result : N) (a t0 r : Matrix) (la lr : list float) :
  holds m matrix_a a la ->
  rows a = cols a ->
  rows a * cols a <= INT_MAX ->
  structs m !! transposed = Some t0 ->
  structs m !! result = Some r ->
  transposed <> matrix_a -> result <> transposed ->
  blocks m !! data r = Some lr ->
  rows a * cols a <= Z.of_nat (length lr) ->
  data r <> data a ->
  exists m' lr',
    (ok <- transposeMatrix answer matrix_a transposed ;;
     sumMatrices matrix_a transposed false result) m = Ok true m' /\
    blocks m' !! data r = Some lr' /\
    forall i j, 0 <= i < rows a -> 0 <= j < cols a ->
      exists x, la !! Z.to_nat (j * cols a + i) = Some x /\
                lr' !! Z.to_nat (i * cols a + j) = Some (x + x)%float.
Proof.
  destruct m as [S B O].
  intros (Ha & Hda & Hla) Hsq Hint Ht Hr Hta Hrt Hdr Hlr Hra. simpl in *.
  assert (Hpa : result <> matrix_a) by (intros ->; congruence).
  destruct (transposeMatrix_square_run S B O answer matrix_a transposed a t0 la)
    as (l' & Hrun1 & Hlen' & Hl'); try assumption.
  destruct (sumMatrices_add_run
              (<[transposed := mkMatrix (rows a) (cols a) (data a)]> S)
              (<[data a := l']> B) O matrix_a transposed result
              a (mkMatrix (rows a) (cols a) (data a)) r l' l' lr)
    as (lr' & Hrun2 & Hsum); simpl; try assumption; try reflexivity; try lia;
    try apply lookup_insert_eq; try (now rewrite lookup_insert_ne).
  eexists. exists lr'. split.
  - rewrite (bind_Ok _ _ _ _ _ Hrun1). exact Hrun2.
  - simpl. split; [apply lookup_insert_eq|].
    intros i j Hi Hj.
    destruct (Hsum (i * cols a + j)) as (x & y & Hx & Hy & Hxy); [nia|].
    exists x. split; [now rewrite <- Hl'|]. congruence.
Qed.

Lemma transposeMatrix_then_sumMatrices_witness :
  exists m' lr',
    (ok <- transposeMatrix None squareS resultTrans ;;
     sumMatrices squareS resultTrans false resultMult) main_frame = Ok true m' /\
    blocks m' !! resultMultData = Some lr' /\
    forall i j, 0 <= i < 2 -> 0 <= j < 2 ->
      exists x, [1; 2; 3; 4]%float !! Z.to_nat (j * 2 + i) = Some x /\
                lr' !! Z.to_nat (i * 2 + j) = Some (x + x)%float.
Proof.
  apply (transposeMatrix_then_sumMatrices main_frame None squareS resultTrans resultMult
           (mkMatrix 2 2 squareSData) (mkMatrix 0 0 NULL) (mkMatrix 2 2 resultMultData)
           [1; 2; 3; 4]%float [0; 0; 0; 0]%float);
    try (repeat split; fail); try reflexivity;
    try (cbv delta [int_range INT_MIN INT_MAX]; simpl; lia); vm_compute; lia.
Defined.

(** ** multiplyMatrices on a result buffer of the declared size *)

Lemma for_loop_split lo k hi body m :
  lo <= k <= hi ->
  for_loop lo hi body m = bind (for_loop lo k body) (fun _ => for_loop k hi body) m.
Proof.
  intros Hk. remember (Z.to_nat (k - lo)) as n eqn:Hn.
  revert lo m Hk Hn. induction n as [|n IH]; intros lo m Hk Hn.
  - assert (lo = k) as -> by lia.
    now rewrite (bind_Ok _ _ _ _ _ (for_loop_empty k k body m ltac:(lia))).
  - rewrite (for_loop_step lo hi) by lia. unfold bind.
    rewrite (for_loop_step lo k) by lia. unfold bind.
    destruct (body lo m) as [[] m1 | f]; [|reflexivity].
    rewrite (IH (lo + 1) m1) by lia. reflexivity.
Qed.

Lemma poke_out_of_bounds S B O d l i x :
  B !! d = Some l -> Z.of_nat (length l) <= i ->
  poke d i x (mkMem S B O) = Fault (OutOfBounds d i).
Proof.
  intros Hd Hi. unfold poke. simpl. rewrite Hd.
  destruct (Z.ltb_spec i (Z.of_nat (length l))); [lia|].
  now rewrite andb_false_r.
Qed.

(** X15: multiplyMatrices writes a.rows * b.cols cells, whatever shape it
    declares.  When a has more rows than columns (the cell counts of a and b
    fitting an int) and the result buffer holds
    the a.cols * b.cols cells of the declared shape, the call computes the
    first a.cols rows and stops on the store of 0 at the index
    a.cols * b.cols, outside of the buffer. *)
Theorem multiplyMatrices_declared_size (m : mem) (matrix_a matrix_b result : N)
    (a b r : Matrix) (la lb lr : list float) :
  holds m matrix_a a la ->
  holds m matrix_b b lb ->
  cols a = rows b ->
  0 <= cols a -> cols a < rows a -> 0 < cols b ->
  rows a * cols a <= INT_MAX -> rows b * cols b <= INT_MAX ->
  structs m !! result = Some r ->
  blocks m !! data r = Some lr ->
  Z.of_nat (length lr) = cols a * cols b ->
  data r <> data a -> data r <> data b ->
  multiplyMatrices matrix_a matrix_b result m
  = Fault (OutOfBounds (data r) (cols a * cols b)).
Proof.
  destruct m as [S B O].
  intros (Ha & Hda & Hla) (Hb & Hdb & Hlb) Hab Hca Hlt Hcb Hia Hib
    Hr Hdr Hlr Hrna Hrnb.
  simpl in *.
  assert (Hpa : result <> matrix_a) by (intros ->; congruence).
  assert (Hpb : result <> matrix_b) by (intros ->; congruence).
  destruct (product_loops (<[result := mkMatrix (cols a) (cols b) (data r)]> S) B O
              (data a) (data b) (data r) la lb lr (cols a) (cols a) (cols b))
    as (l' & Hrun & Hlen & _); try assumption; try lia; try nia.
  unfold multiplyMatrices. do 2 step.
  replace (cols a =? rows b) with true by (symmetry; now apply Z.eqb_eq).
  simpl. do 4 step. rewrite insert_insert_eq. do 7 step.
  apply bind_Fault.
  rewrite (for_loop_split 0 (cols a) (rows a)) by lia.
  erewrite bind_Ok; [| erewrite for_loop_ext; [exact Hrun|]].
  2: { intros i Hi st. rewrite !int_mul_small by int_ok.
       apply for_loop_ext. intros j Hj st'. apply bind_ext. intros _ st''.
       apply for_loop_ext. intros k Hk st3. rewrite !int_mul_small by int_ok.
       reflexivity. }
  rewrite for_loop_step by lia. apply bind_Fault.
  rewrite for_loop_step by lia. apply bind_Fault. apply bind_Fault.
  rewrite int_mul_small by int_ok. rewrite Z.add_0_r.
  apply (poke_out_of_bounds _ _ O (data r) l'); [apply lookup_insert_eq | lia].
Qed.

Lemma multiplyMatrices_declared_size_witness :
  multiplyMatrices matrixC matrixA resultSum main_frame
  = Fault (OutOfBounds resultData (2 * 3)).
Proof.
  apply (multiplyMatrices_declared_size main_frame matrixC matrixA resultSum
           (mkMatrix 3 2 matrixCData) (mkMatrix 2 3 matrixAData)
           (mkMatrix 2 3 resultData)
           [7; 8; 9; 10; 11; 12]%float [1; 2; 3; 4; 5; 6]%float [0; 0; 0; 0; 0; 0]%float);
    try (repeat split; fail); try reflexivity;
    try (cbv delta [int_range INT_MIN INT_MAX]; simpl; lia); vm_compute; lia.
Defined.
